(** * SqStream: a duplex stream over an SQS queue (src/index.js)

    The adapter is a Node.js [Duplex] stream.  Its code is a set of callbacks
    run by the event loop: every [setImmediate], [setInterval] and SQS request
    registers a callback that runs later, in an order chosen by the
    environment.  The embedding keeps that structure:

    - the object's fields are a record;
    - every registered callback is a [task] in a pool carried by the state
      (the closures of the source, defunctionalised: a task holds the
      variables its closure captures);
    - one [input] is one turn of the event loop: a call made by the stream
      machinery ([_read], [_write], the 'prefinish' event), or one pending
      callback being run, together with the reply of the queue service when
      the callback is the completion of a request;
    - everything the adapter does to the outside world (push, emit, the
      write callback, the requests it sends, the settlement of the promises
      it returns) is appended to a log, [out], in the order it happens.

    The Q library runs a callback chained on a promise in a later tick than
    the one that settles the promise.  A chained callback that reads and
    writes none of the fields the adapter changes (it sends a request with
    the arguments it has captured, pushes the batch it has captured, or
    settles the next promise) is run here in the turn that settles the
    promise: no other callback can tell the difference.  A chained callback
    that reads or writes such a field is a turn of its own: handleMessages
    (the turn [ReceiveDone]; the arrival of the reply itself touches
    nothing) and the [.fin] that decrements the counter ([Tick FinAck]). *)

From Stdlib Require Import ZArith List String Ascii Bool Lia DecimalString
  DecimalNat.
From Stdlib Require Finite.
Import ListNotations.

Local Open Scope string_scope.
Local Open Scope Z_scope.
Local Open Scope list_scope.

(** ** Data *)

(** A message as [receiveMessage] returns it. *)
Module Message.
Record t : Set := make
  { MessageId : string; ReceiptHandle : string; Body : string }.
End Message.

(** An entry of a [deleteMessageBatch] request. *)
Module DeleteEntry.
Record t : Set := make { Id : string; ReceiptHandle : string }.
End DeleteEntry.

(** An entry of a [sendMessageBatch] request. *)
Module SendEntry.
Record t : Set := make { Id : string; MessageBody : string }.
End SendEntry.

(** An error object of the SDK; only its identity matters. *)
Definition error : Set := string.

(** What [_write] can be given (objectMode, decodeStrings: false).  The
    conversions to text are library functions of the platform; each
    constructor carries the text its conversion yields. *)
Inductive chunk : Set :=
| Str (s : string)            (* typeof message === 'string' *)
| Buf (decoded : string)      (* Buffer.isBuffer: message.toString() *)
| Obj (json : string)         (* Object(message) === message: JSON.stringify *)
| Prim (text : string).       (* anything else: message.toString() *)

(** Strings are sequences of bytes (UTF-8), so [Buffer.byteLength] is the
    length. *)
Definition byteLength (s : string) : Z := Z.of_nat (String.length s).

(** Truthiness of a JavaScript string: only the empty string is falsy. *)
Definition truthy (s : string) : bool := negb (String.eqb s "").

(** [idx.toString()] for an array index. *)
Definition toString (idx : nat) : string :=
  NilZero.string_of_uint (Nat.to_uint idx).

(** ** Pending callbacks *)

(** Who called [getUrl], that is what is chained on its promise. *)
Inductive url_cont : Set :=
| ThenReceive                       (* getMessages *)
| ThenDelete (messages : list Message.t) (entries : list DeleteEntry.t)
                                    (* deleteMessages *)
| ThenSend (entries : list SendEntry.t).
                                    (* processWrites *)

Inductive task : Set :=
| ImmGetUrl (k : url_cont)          (* the setImmediate of getUrl *)
| ReqGetQueueUrl (k : url_cont)     (* sqs.getQueueUrl in flight *)
| ReqReceive (url : string)         (* sqs.receiveMessage in flight *)
| ImmDelete (messages : list Message.t)
                                    (* the setImmediate of deleteMessages *)
| ReqDelete (url : string) (entries : list DeleteEntry.t)
            (messages : list Message.t)
                                    (* sqs.deleteMessageBatch in flight *)
| FinAck                            (* the .fin of handleMessages *)
| ImmResolveFalse                   (* setImmediate(deferred.resolve(false)) *)
| DrainTimer                        (* the setInterval of handleMessages *)
| ReqSend (url : string) (entries : list SendEntry.t)
                                    (* sqs.sendMessageBatch in flight *)
| WriteTimer (message : string) (cb : nat).
                                    (* the setInterval of _write *)

(** ** The log of effects *)

Inductive event : Set :=
| Push (m : Message.t)              (* this.push(message) *)
| PushNull                          (* this.push(null) *)
| EmitError (e : error)             (* this.emit('error', err) *)
| WriteCallback (cb : nat) (buffered : list string)
    (* callback() of write number cb; [buffered] is _pendingWrites as the
       callback finds it *)
| CallGetQueueUrl (QueueName : string)
| CallReceiveMessage (QueueUrl : string) (MaxNumberOfMessages : Z)
                     (VisibilityTimeout : Z)
| CallDeleteMessageBatch (QueueUrl : string) (Entries : list DeleteEntry.t)
| CallSendMessageBatch (QueueUrl : string) (Entries : list SendEntry.t)
| UrlResolved (k : url_cont) (url : string)   (* getUrl's promise resolved *)
| UrlRejected (k : url_cont) (e : error)      (* getUrl's promise rejected *)
| HandleResolved (b : bool)         (* handleMessages' promise resolved *)
| HandleRejected (e : error).       (* handleMessages' promise rejected *)

(** ** The object *)

Record SqStream : Set := mkSqStream
  { _queueName : string;
    maxMessageSize : Z;
    maxMessagesPerSend : Z;
    maxMessagesPerGet : Z;
    visibilityTimeout : Z;
    _queueUrl : option string;      (* null, or the cached URL *)
    _inFlightAcks : Z;
    _waitingToEnd : bool;
    _pendingWrites : list string;
    _sendingMessages : bool;
    tasks : list task;              (* callbacks registered and not yet run *)
    out : list event }.             (* effects so far, oldest first *)

(** The constructor. *)
Definition new (queueName : string) : SqStream :=
  {| _queueName := queueName;
     maxMessageSize := 262144;
     maxMessagesPerSend := 10;
     maxMessagesPerGet := 10;
     visibilityTimeout := 30;
     _queueUrl := None;
     _inFlightAcks := 0;
     _waitingToEnd := false;
     _pendingWrites := [];
     _sendingMessages := false;
     tasks := [];
     out := [] |}.

Section Setters.
Variable s : SqStream.

Definition set_queueUrl (u : option string) : SqStream :=
  mkSqStream (_queueName s) (maxMessageSize s) (maxMessagesPerSend s)
    (maxMessagesPerGet s) (visibilityTimeout s) u (_inFlightAcks s)
    (_waitingToEnd s) (_pendingWrites s) (_sendingMessages s) (tasks s)
    (out s).

Definition set_inFlightAcks (n : Z) : SqStream :=
  mkSqStream (_queueName s) (maxMessageSize s) (maxMessagesPerSend s)
    (maxMessagesPerGet s) (visibilityTimeout s) (_queueUrl s) n
    (_waitingToEnd s) (_pendingWrites s) (_sendingMessages s) (tasks s)
    (out s).

Definition set_waitingToEnd (b : bool) : SqStream :=
  mkSqStream (_queueName s) (maxMessageSize s) (maxMessagesPerSend s)
    (maxMessagesPerGet s) (visibilityTimeout s) (_queueUrl s)
    (_inFlightAcks s) b (_pendingWrites s) (_sendingMessages s) (tasks s)
    (out s).

Definition set_pendingWrites (l : list string) : SqStream :=
  mkSqStream (_queueName s) (maxMessageSize s) (maxMessagesPerSend s)
    (maxMessagesPerGet s) (visibilityTimeout s) (_queueUrl s)
    (_inFlightAcks s) (_waitingToEnd s) l (_sendingMessages s) (tasks s)
    (out s).

Definition set_sendingMessages (b : bool) : SqStream :=
  mkSqStream (_queueName s) (maxMessageSize s) (maxMessagesPerSend s)
    (maxMessagesPerGet s) (visibilityTimeout s) (_queueUrl s)
    (_inFlightAcks s) (_waitingToEnd s) (_pendingWrites s) b (tasks s)
    (out s).

Definition set_tasks (l : list task) : SqStream :=
  mkSqStream (_queueName s) (maxMessageSize s) (maxMessagesPerSend s)
    (maxMessagesPerGet s) (visibilityTimeout s) (_queueUrl s)
    (_inFlightAcks s) (_waitingToEnd s) (_pendingWrites s)
    (_sendingMessages s) l (out s).

Definition set_out (l : list event) : SqStream :=
  mkSqStream (_queueName s) (maxMessageSize s) (maxMessagesPerSend s)
    (maxMessagesPerGet s) (visibilityTimeout s) (_queueUrl s)
    (_inFlightAcks s) (_waitingToEnd s) (_pendingWrites s)
    (_sendingMessages s) (tasks s) l.
End Setters.

(** An effect on the outside world. *)
Definition emit (e : event) (s : SqStream) : SqStream :=
  set_out s (out s ++ [e]).

(** Registering a callback.  The pool is unordered: any pending callback may
    be the next to run. *)
Definition spawn (t : task) (s : SqStream) : SqStream :=
  set_tasks s (t :: tasks s).

(** *** Equality of tasks, to find a callback in the pool *)

Definition message_eq_dec (a b : Message.t) : {a = b} + {a <> b}.
Proof. decide equality; apply string_dec. Defined.

Definition delete_entry_eq_dec (a b : DeleteEntry.t) : {a = b} + {a <> b}.
Proof. decide equality; apply string_dec. Defined.

Definition send_entry_eq_dec (a b : SendEntry.t) : {a = b} + {a <> b}.
Proof. decide equality; apply string_dec. Defined.

Definition url_cont_eq_dec (a b : url_cont) : {a = b} + {a <> b}.
Proof.
  decide equality;
    first [ apply (list_eq_dec message_eq_dec)
          | apply (list_eq_dec delete_entry_eq_dec)
          | apply (list_eq_dec send_entry_eq_dec) ].
Defined.

Definition task_eq_dec (a b : task) : {a = b} + {a <> b}.
Proof.
  decide equality;
    first [ apply url_cont_eq_dec
          | apply string_dec
          | apply Nat.eq_dec
          | apply (list_eq_dec message_eq_dec)
          | apply (list_eq_dec delete_entry_eq_dec)
          | apply (list_eq_dec send_entry_eq_dec) ].
Defined.

(** Removing one occurrence of a callback from a pool. *)
Fixpoint remove_task (t : task) (l : list task) : option (list task) :=
  match l with
  | [] => None
  | t' :: l' =>
      if task_eq_dec t t' then Some l'
      else option_map (cons t') (remove_task t l')
  end.

(** The callback [t] is taken out of the pool to be run; [None] when it is
    not pending. *)
Definition take (t : task) (s : SqStream) : option SqStream :=
  option_map (set_tasks s) (remove_task t (tasks s)).

(** ** getUrl (lines 42-63) *)

(** [getUrl()] only registers an immediate. *)
Definition getUrl (k : url_cont) (s : SqStream) : SqStream :=
  spawn (ImmGetUrl k) s.

(** What each caller chains on the promise, when it is resolved... *)
Definition url_then (k : url_cont) (url : string) (s : SqStream) : SqStream :=
  match k with
  | ThenReceive =>
      (* getMessages: Q.ninvoke(this._sqs, 'receiveMessage', ...) *)
      spawn (ReqReceive url)
        (emit (CallReceiveMessage url (maxMessagesPerGet s)
                 (visibilityTimeout s)) s)
  | ThenDelete messages entries =>
      (* deleteMessages: this._sqs.deleteMessageBatch(...) *)
      spawn (ReqDelete url entries messages)
        (emit (CallDeleteMessageBatch url entries) s)
  | ThenSend entries =>
      (* processWrites: this._sqs.sendMessageBatch(...) *)
      spawn (ReqSend url entries)
        (emit (CallSendMessageBatch url entries) s)
  end.

(** ... and when it is rejected. *)
Definition url_fail (k : url_cont) (e : error) (s : SqStream) : SqStream :=
  match k with
  | ThenReceive =>
      (* _read chains nothing on a rejection *)
      s
  | ThenDelete _ _ =>
      (* deleteMessages: .fail(deferred.reject), then in handleMessages
         .fail(deferred.reject) and .fin *)
      spawn FinAck (emit (HandleRejected e) s)
  | ThenSend _ =>
      (* processWrites chains nothing on a rejection *)
      s
  end.

(** The request of lines 50-52. *)
Definition lookup (k : url_cont) (s : SqStream) : SqStream :=
  spawn (ReqGetQueueUrl k) (emit (CallGetQueueUrl (_queueName s)) s).

(** The immediate of lines 45-60. *)
Definition getUrl_immediate (k : url_cont) (s : SqStream) : SqStream :=
  match _queueUrl s with
  | Some url =>
      if truthy url then url_then k url (emit (UrlResolved k url) s)
      else lookup k s
  | None => lookup k s
  end.

(** The callback of lines 52-59; [inl err] is a call with an error, [inr url]
    a call with [data.QueueUrl = url]. *)
Definition getQueueUrl_callback (k : url_cont) (r : error + string)
    (s : SqStream) : SqStream :=
  match r with
  | inl err => url_fail k err (emit (UrlRejected k err) s)
  | inr url =>
      let s := set_queueUrl s (Some url) in
      url_then k url (emit (UrlResolved k url) s)
  end.

(** ** getMessages (lines 69-81) *)

Definition getMessages (s : SqStream) : SqStream := getUrl ThenReceive s.

(** ** deleteMessages (lines 88-114) *)

Definition deleteMessages (messages : list Message.t) (s : SqStream)
  : SqStream :=
  spawn (ImmDelete messages) s.

Definition delete_entries (messages : list Message.t) : list DeleteEntry.t :=
  map (fun message =>
         DeleteEntry.make (Message.MessageId message)
           (Message.ReceiptHandle message))
      messages.

(** [messages.forEach(this.push.bind(this))] *)
Definition push_all (messages : list Message.t) (s : SqStream) : SqStream :=
  fold_left (fun s m => emit (Push m) s) messages s.

(** The promise of deleteMessages resolved: the [.then] of handleMessages
    (line 139), after which [.fin] is due. *)
Definition deleted_then (messages : list Message.t) (s : SqStream)
  : SqStream :=
  spawn FinAck (push_all messages s).

(** The promise of deleteMessages rejected: the [.fail] of handleMessages
    (line 141), after which [.fin] is due. *)
Definition deleted_fail (e : error) (s : SqStream) : SqStream :=
  spawn FinAck (emit (HandleRejected e) s).

(** The immediate of lines 91-111. *)
Definition deleteMessages_immediate (messages : list Message.t)
    (s : SqStream) : SqStream :=
  let entries := delete_entries messages in
  if (List.length entries =? 0)%nat then deleted_then messages s
  else getUrl (ThenDelete messages entries) s.

(** [deferred.makeNodeResolver()]: [Some err] is a call with an error. *)
Definition deleteMessageBatch_callback (messages : list Message.t)
    (r : option error) (s : SqStream) : SqStream :=
  match r with
  | Some err => deleted_fail err s
  | None => deleted_then messages s
  end.

(** The [.fin] of lines 142-144. *)
Definition fin_ack (s : SqStream) : SqStream :=
  set_inFlightAcks s (_inFlightAcks s - 1).

(** ** handleMessages (lines 121-148) *)

(** [messages] is [data.Messages]: [None] when the reply has no such
    field. *)
Definition handleMessages (messages : option (list Message.t))
    (s : SqStream) : SqStream :=
  if _waitingToEnd s then spawn ImmResolveFalse s
  else
    match messages with
    | None => spawn DrainTimer (set_waitingToEnd s true)
    | Some messages =>
        deleteMessages messages (set_inFlightAcks s (_inFlightAcks s + 1))
    end.

(** One tick of the interval of lines 128-134, the timer taken out of the
    pool: [None] when the tick returns at line 129 and the timer stays. *)
Definition drain_tick (s : SqStream) : option SqStream :=
  if _inFlightAcks s >? 0 then None
  else Some (emit (HandleResolved false) (emit PushNull s)).

(** The reply to receiveMessage: on an error the chain of [_read] is
    rejected and handleMessages is not called. *)
Definition receiveMessage_callback (r : error + option (list Message.t))
    (s : SqStream) : SqStream :=
  match r with
  | inl _ => s
  | inr messages => handleMessages messages s
  end.

(** ** _read (lines 153-155) *)

Definition _read (s : SqStream) : SqStream := getMessages s.

(** ** processWrites (lines 160-187) *)

(** The [reduce] of lines 167-174, from index [idx] on. *)
Fixpoint reduce_entries (memo : list SendEntry.t) (idx : nat)
    (pendingWrites : list string) : list SendEntry.t :=
  match pendingWrites with
  | [] => memo
  | message :: rest =>
      reduce_entries (memo ++ [SendEntry.make (toString idx) message])
        (S idx) rest
  end.

Definition processWrites (s : SqStream) : SqStream :=
  if (List.length (_pendingWrites s) =? 0)%nat then s
  else
    let s := set_sendingMessages s true in
    let pendingWrites := _pendingWrites s in
    let s := set_pendingWrites s [] in
    let entries := reduce_entries [] 0 pendingWrites in
    getUrl (ThenSend entries) s.

(** The callback of lines 180-185. *)
Definition sendMessageBatch_callback (r : option error) (s : SqStream)
  : SqStream :=
  let s := set_sendingMessages s false in
  match r with
  | Some err => emit (EmitError err) s
  | None => s
  end.

(** ** readyForWrite (lines 197-215) *)

(** [message] is [None] when the function is called without argument. *)
Definition readyForWrite (message : option string) (s : SqStream) : bool :=
  if Z.of_nat (List.length (_pendingWrites s)) >=? maxMessagesPerSend s then false
  else if _sendingMessages s then false
  else
    let size :=
      fold_left (fun sum message => sum + byteLength message)
        (_pendingWrites s)
        (match message with
         | Some m => if truthy m then byteLength m else 0
         | None => 0
         end) in
    if size + size >=? maxMessageSize s then false
    else true.

(** ** queueWrite (lines 189-195) *)

Definition queueWrite (message : string) (callback : nat) (s : SqStream)
  : SqStream :=
  let s := emit (WriteCallback callback (_pendingWrites s)) s in
  let s := set_pendingWrites s (_pendingWrites s ++ [message]) in
  if negb (readyForWrite None s) then processWrites s else s.

(** ** _write (lines 223-243) *)

Definition normalize (message : chunk) : string :=
  match message with
  | Str s => s
  | Buf decoded => decoded
  | Obj json => json
  | Prim text => text
  end.

Definition _write (message : chunk) (callback : nat) (s : SqStream)
  : SqStream :=
  let message := normalize message in
  if readyForWrite (Some message) s then queueWrite message callback s
  else spawn (WriteTimer message callback) s.

(** One tick of the interval of lines 236-241, the timer taken out of the
    pool: [None] when the adapter is not ready and the timer stays. *)
Definition write_tick (message : string) (callback : nat) (s : SqStream)
  : option SqStream :=
  if readyForWrite None s then Some (queueWrite message callback s)
  else None.

(** ** The event loop *)

(** A turn is a call made by the stream machinery, a pending immediate,
    interval or [.fin] being run, or the completion of a pending request: the
    input then names the request, as the pool holds it, and carries the
    answer [r] of the service. *)
Inductive input : Set :=
| Read                               (* the stream calls _read() *)
| Write (message : chunk) (callback : nat)
                                     (* the stream calls _write(...) *)
| Prefinish                          (* the stream emits 'prefinish' *)
| Tick (t : task)                    (* an immediate, an interval or a .fin
                                        is run *)
| GetQueueUrlDone (k : url_cont) (r : error + string)
| ReceiveDone (url : string) (r : error + option (list Message.t))
| DeleteDone (url : string) (entries : list DeleteEntry.t)
             (messages : list Message.t) (r : option error)
| SendDone (url : string) (entries : list SendEntry.t) (r : option error).

(** An interval stays in the pool unless its tick clears it. *)
Definition interval (t : task) (tick : SqStream -> option SqStream)
    (s : SqStream) : option SqStream :=
  match take t s with
  | None => None
  | Some s' =>
      match tick s' with
      | Some s'' => Some s''
      | None => Some s
      end
  end.

(** One turn; [None] when the callback to run is not pending. *)
Definition step (i : input) (s : SqStream) : option SqStream :=
  match i with
  | Read => Some (_read s)
  | Write message callback => Some (_write message callback s)
  | Prefinish => Some (processWrites s)
  | Tick (ImmGetUrl k) =>
      option_map (getUrl_immediate k) (take (ImmGetUrl k) s)
  | Tick (ImmDelete messages) =>
      option_map (deleteMessages_immediate messages)
        (take (ImmDelete messages) s)
  | Tick FinAck => option_map fin_ack (take FinAck s)
  | Tick ImmResolveFalse =>
      option_map (emit (HandleResolved false)) (take ImmResolveFalse s)
  | Tick DrainTimer => interval DrainTimer drain_tick s
  | Tick (WriteTimer message callback) =>
      interval (WriteTimer message callback) (write_tick message callback) s
  | Tick (ReqGetQueueUrl _) | Tick (ReqReceive _) | Tick (ReqDelete _ _ _)
  | Tick (ReqSend _ _) => None
  | GetQueueUrlDone k r =>
      option_map (getQueueUrl_callback k r) (take (ReqGetQueueUrl k) s)
  | ReceiveDone url r =>
      option_map (receiveMessage_callback r) (take (ReqReceive url) s)
  | DeleteDone url entries messages r =>
      option_map (deleteMessageBatch_callback messages r)
        (take (ReqDelete url entries messages) s)
  | SendDone url entries r =>
      option_map (sendMessageBatch_callback r) (take (ReqSend url entries) s)
  end.

(** A sequence of turns. *)
Fixpoint run (inputs : list input) (s : SqStream) : option SqStream :=
  match inputs with
  | [] => Some s
  | i :: rest =>
      match step i s with
      | Some s' => run rest s'
      | None => None
      end
  end.

(** The states the adapter can be in. *)
Definition reachable (s : SqStream) : Prop :=
  exists queueName inputs, run inputs (new queueName) = Some s.

(** ** Reading the log *)

Definition pushed (l : list event) : list Message.t :=
  flat_map (fun e => match e with Push m => [m] | _ => [] end) l.

Definition ends (l : list event) : nat :=
  List.length
    (flat_map (fun e => match e with PushNull => [tt] | _ => [] end) l).

Definition errors (l : list event) : list error :=
  flat_map (fun e => match e with EmitError e => [e] | _ => [] end) l.

Definition lookups (l : list event) : list string :=
  flat_map (fun e => match e with CallGetQueueUrl n => [n] | _ => [] end) l.

Definition sends (l : list event) : list (string * list SendEntry.t) :=
  flat_map (fun e => match e with
                     | CallSendMessageBatch u es => [(u, es)]
                     | _ => []
                     end) l.

Definition deletes (l : list event) : list (string * list DeleteEntry.t) :=
  flat_map (fun e => match e with
                     | CallDeleteMessageBatch u es => [(u, es)]
                     | _ => []
                     end) l.

(** ** Counting the callbacks of a kind in the pool *)

Fixpoint weight (f : task -> nat) (l : list task) : nat :=
  match l with
  | [] => 0%nat
  | t :: l' => (f t + weight f l')%nat
  end.

(** The callbacks of an acknowledgment under way: from the increment of
    line 136 to the decrement of line 143. *)
Definition ack_weight (t : task) : nat :=
  match t with
  | ImmDelete _ | ImmGetUrl (ThenDelete _ _) | ReqGetQueueUrl (ThenDelete _ _)
  | ReqDelete _ _ _ | FinAck => 1%nat
  | _ => 0%nat
  end.

(** The callbacks of a flush under way: from line 176 to the callback of
    sendMessageBatch. *)
Definition flush_weight (t : task) : nat :=
  match t with
  | ImmGetUrl (ThenSend _) | ReqGetQueueUrl (ThenSend _) | ReqSend _ _ => 1%nat
  | _ => 0%nat
  end.

Definition drain_weight (t : task) : nat :=
  match t with
  | DrainTimer => 1%nat
  | _ => 0%nat
  end.

(** ** Predicates and scenarios of the statements *)

(** Messages reach the reader from one place only: the reply of a
    deleteMessageBatch call without error, which pushes the whole batch in
    the order it was received. *)
Definition emitted_by (i : input) : list Message.t :=
  match i with
  | DeleteDone _ _ messages None => messages
  | _ => []
  end.

(** The error channel is written from one place only: the callback of
    sendMessageBatch called with an error (line 183). *)
Definition raised_by (i : input) : list error :=
  match i with
  | SendDone _ _ (Some e) => [e]
  | _ => []
  end.

(** [_inFlightAcks] counts the acknowledgments under way. *)
Definition acks_counted (s : SqStream) : Prop :=
  _inFlightAcks s = Z.of_nat (weight ack_weight (tasks s)).

(** End-of-input is signalled at most once, and the drain timer runs exactly
    from the start of draining to that signal. *)
Definition drain_once (s : SqStream) : Prop :=
  (ends (out s) + weight drain_weight (tasks s))%nat =
  if _waitingToEnd s then 1%nat else 0%nat.

(** Between two turns the buffer is empty or would admit a write. *)
Definition buffer_ready (s : SqStream) : Prop :=
  _pendingWrites s = [] \/ readyForWrite None s = true.

(** At most one flush is under way, and the busy flag is set while it is. *)
Definition one_flush (s : SqStream) : Prop :=
  (weight flush_weight (tasks s) <= 1)%nat /\
  (weight flush_weight (tasks s) = 1%nat -> _sendingMessages s = true).

Record invariant (s : SqStream) : Prop := mkInvariant
  { inv_acks : acks_counted s;
    inv_drain : drain_once s;
    inv_buffer : buffer_ready s;
    inv_flush : one_flush s }.

(** Sample data for the scenarios. *)
Definition sample_url : string := "https://sqs.test/123/some-queue".
Definition sample_first : Message.t := Message.make "id-1" "receipt-1" "one".
Definition sample_second : Message.t := Message.make "id-2" "receipt-2" "two".

(** A first poll resolves the address, a second poll is in flight, and the
    first comes back without messages: the adapter is draining with a
    receiveMessage call still pending. *)
Definition draining_turns : list input :=
  [ Read; Tick (ImmGetUrl ThenReceive);
    GetQueueUrlDone ThenReceive (inr sample_url);
    Read; Tick (ImmGetUrl ThenReceive);
    ReceiveDone sample_url (inr None) ].

(** Three payloads are written and the write side is closed; the address is
    looked up ([closing_turns]) and the batch is on its way to the service
    ([sending_turns]). *)
Definition sample_batch : list SendEntry.t :=
  [ SendEntry.make "0" "a"; SendEntry.make "1" "b"; SendEntry.make "2" "c" ].

Definition closing_turns : list input :=
  [ Write (Str "a") 0; Write (Str "b") 1; Write (Str "c") 2; Prefinish;
    Tick (ImmGetUrl (ThenSend sample_batch)) ].

Definition sending_turns : list input :=
  closing_turns ++ [ GetQueueUrlDone (ThenSend sample_batch) (inr sample_url) ].


(** The flush of [closing_turns] has asked for the address; a later write
    finds the adapter busy and waits on its timer. *)
Definition later_write_turns : list input :=
  [ Write (Str "d") 3; Tick (WriteTimer "d" 3); Read;
    Tick (WriteTimer "d" 3) ].


(** The terminal state of the read side: draining, with no acknowledgment
    under way and the drain timer cleared. *)
Definition closed (s : SqStream) : Prop :=
  _waitingToEnd s = true /\
  weight ack_weight (tasks s) = 0%nat /\
  weight drain_weight (tasks s) = 0%nat.


(** A poll is in flight on an active adapter. *)
Definition polling_turns : list input :=
  [ Read; Tick (ImmGetUrl ThenReceive);
    GetQueueUrlDone ThenReceive (inr sample_url) ].

(** The callbacks of an acknowledgment carry the batch as it was received
    and the entries made from it. *)
Definition batch_task (t : task) : Prop :=
  match t with
  | ImmGetUrl (ThenDelete messages entries)
  | ReqGetQueueUrl (ThenDelete messages entries)
  | ReqDelete _ entries messages =>
      entries = delete_entries messages /\ messages <> []
  | _ => True
  end.

Definition batches_intact (s : SqStream) : Prop :=
  Forall batch_task (tasks s).

(** The turns of one acknowledgment when the address is cached: the reply
    of receiveMessage, the immediate of deleteMessages, the immediate of
    getUrl and the reply of deleteMessageBatch. *)
Definition ack_turns (url u : string) (messages : list Message.t)
    (r : option error) : list input :=
  let entries := delete_entries messages in
  [ ReceiveDone url (inr (Some messages));
    Tick (ImmDelete messages);
    Tick (ImmGetUrl (ThenDelete messages entries));
    DeleteDone u entries messages r ].

(** The service gives the address [u] whenever a lookup succeeds. *)
Definition answers (u : string) (i : input) : Prop :=
  match i with
  | GetQueueUrlDone _ (inr url) => url = u
  | _ => True
  end.

(** A first lookup fails, a second succeeds, and a third call is served
    from the cache. *)
Definition resolving_turns : list input :=
  [ Read; Tick (ImmGetUrl ThenReceive);
    GetQueueUrlDone ThenReceive (inl "RequestTimeout");
    Read; Tick (ImmGetUrl ThenReceive);
    GetQueueUrlDone ThenReceive (inr sample_url) ].

(** A poll returns two messages and deleteMessageBatch fails. *)
Definition failed_ack_turns : list input :=
  polling_turns
  ++ ack_turns sample_url sample_url [sample_first; sample_second]
       (Some "InternalError")
  ++ [ Tick FinAck ].

(** The bytes held by a buffer, as the [reduce] of line 206 sums them. *)
Definition buffer_bytes (init : Z) (pendingWrites : list string) : Z :=
  fold_left (fun sum message => sum + byteLength message) pendingWrites init.

Definition batch_bytes (entries : list SendEntry.t) : Z :=
  buffer_bytes 0 (map SendEntry.MessageBody entries).

(** A payload too large to be admitted is deferred, then admitted by the
    first tick of its timer, flushed alone, and sent. *)
Definition oversized_turns (payload : string) (callback : nat)
    (url : string) : list input :=
  let k := ThenSend [SendEntry.make "0" payload] in
  [ Write (Str payload) callback;
    Tick (WriteTimer payload callback);
    Tick (ImmGetUrl k);
    GetQueueUrlDone k (inr url) ].

(** A payload of [n] bytes. *)
Fixpoint filler (n : nat) : string :=
  match n with
  | O => EmptyString
  | S n' => String "x" (filler n')
  end.

(** What does hold of every batch: it has at most ten entries. *)
Definition small_batch (entries : list SendEntry.t) : Prop :=
  (List.length entries <= 10)%nat.

Definition flush_task_small (t : task) : Prop :=
  match t with
  | ImmGetUrl (ThenSend entries) | ReqGetQueueUrl (ThenSend entries)
  | ReqSend _ entries => small_batch entries
  | _ => True
  end.

Definition batches_small (s : SqStream) : Prop :=
  maxMessagesPerSend s = 10 /\
  Forall flush_task_small (tasks s) /\
  Forall (fun call => small_batch (snd call)) (sends (out s)).

(** ** Further predicates on states, logs and runs *)

(** A batch as processWrites builds it: not empty, the entry at index [i]
    made of the id [toString i] and the payload at that index. *)
Definition indexed_batch (entries : list SendEntry.t) : Prop :=
  entries <> [] /\
  entries = reduce_entries [] 0 (map SendEntry.MessageBody entries).

Definition flush_task_indexed (t : task) : Prop :=
  match t with
  | ImmGetUrl (ThenSend entries) | ReqGetQueueUrl (ThenSend entries)
  | ReqSend _ entries => indexed_batch entries
  | _ => True
  end.

Definition batches_indexed (s : SqStream) : Prop :=
  Forall flush_task_indexed (tasks s) /\
  Forall (fun call => indexed_batch (snd call)) (sends (out s)).

(** How many times the callback [cb] of a write has been called, how many
    timers of _write hold it, and how many times _write was given it. *)
Definition completions (cb : nat) (l : list event) : nat :=
  List.length
    (flat_map (fun e => match e with
                        | WriteCallback c _ => if Nat.eqb c cb then [tt] else []
                        | _ => []
                        end) l).

Definition timer_weight (cb : nat) (t : task) : nat :=
  match t with
  | WriteTimer _ c => if Nat.eqb c cb then 1%nat else 0%nat
  | _ => 0%nat
  end.

Definition submissions (cb : nat) (inputs : list input) : nat :=
  List.length
    (flat_map (fun i => match i with
                        | Write _ c => if Nat.eqb c cb then [tt] else []
                        | _ => []
                        end) inputs).

(** The receiveMessage calls of a log, with the number of messages asked for
    and the visibility timeout. *)
Definition receives (l : list event) : list (string * Z * Z) :=
  flat_map (fun e => match e with
                     | CallReceiveMessage u n v => [(u, n, v)]
                     | _ => []
                     end) l.

(** The polls whose address is being resolved, the polls whose address was
    not resolved, and the calls of _read. *)
Definition poll_weight (t : task) : nat :=
  match t with
  | ImmGetUrl ThenReceive | ReqGetQueueUrl ThenReceive => 1%nat
  | _ => 0%nat
  end.

Definition failed_polls (l : list event) : nat :=
  List.length
    (flat_map (fun e => match e with
                        | UrlRejected ThenReceive _ => [tt]
                        | _ => []
                        end) l).

Definition reads (inputs : list input) : nat :=
  List.length
    (flat_map (fun i => match i with Read => [tt] | _ => [] end) inputs).

Definition polls_as_configured (s : SqStream) : Prop :=
  maxMessagesPerGet s = 10 /\
  visibilityTimeout s = 30 /\
  Forall (fun call => snd (fst call) = 10 /\ snd call = 30)
    (receives (out s)).

(** The addresses the requests of a log were sent to, and the addresses the
    service gave in answer to the lookups of a run. *)
Definition used_urls (l : list event) : list string :=
  flat_map (fun e => match e with
                     | CallReceiveMessage u _ _
                     | CallDeleteMessageBatch u _
                     | CallSendMessageBatch u _ => [u]
                     | _ => []
                     end) l.

Definition returned (inputs : list input) : list string :=
  flat_map (fun i => match i with
                     | GetQueueUrlDone _ (inr u) => [u]
                     | _ => []
                     end) inputs.

(** The adapter of queue [name] knows no address but those of [known]. *)
Definition addresses_from (name : string) (known : list string)
    (s : SqStream) : Prop :=
  _queueName s = name /\
  (forall u, _queueUrl s = Some u -> In u known) /\
  (forall u, In u (used_urls (out s)) -> In u known) /\
  (forall n, In n (lookups (out s)) -> n = name).

(** The entry that names a message in a deleteMessageBatch request
    (lines 93-96). *)
Definition entry_of (message : Message.t) : DeleteEntry.t :=
  DeleteEntry.make (Message.MessageId message)
    (Message.ReceiptHandle message).

(** A deleteMessageBatch request naming the message is in the log. *)
Definition delete_requested (l : list event) (message : Message.t) : Prop :=
  exists url entries,
    In (url, entries) (deletes l) /\ In (entry_of message) entries.

(** Every deleteMessageBatch request in flight is in the log. *)
Definition deletes_logged (s : SqStream) : Prop :=
  forall url entries messages,
    In (ReqDelete url entries messages) (tasks s) ->
    In (url, entries) (deletes (out s)).

(** The batches the service returned in a run, and the batch a callback of
    an acknowledgment has captured. *)
Definition received (inputs : list input) : list (list Message.t) :=
  flat_map (fun i => match i with
                     | ReceiveDone _ (inr (Some messages)) => [messages]
                     | _ => []
                     end) inputs.

Definition carried (t : task) : list (list Message.t) :=
  match t with
  | ImmDelete messages
  | ImmGetUrl (ThenDelete messages _)
  | ReqGetQueueUrl (ThenDelete messages _)
  | ReqDelete _ _ messages => [messages]
  | _ => []
  end.

(** The callbacks of the pool hold no batch but those of [known]. *)
Definition batches_from (known : list (list Message.t)) (s : SqStream)
  : Prop :=
  forall t messages,
    In t (tasks s) -> In messages (carried t) -> In messages known.

(** The sendMessageBatch requests in flight, and the replies to such
    requests in a run. *)
Definition send_weight (t : task) : nat :=
  match t with
  | ReqSend _ _ => 1%nat
  | _ => 0%nat
  end.

Definition send_replies (inputs : list input) : nat :=
  List.length
    (flat_map (fun i => match i with SendDone _ _ _ => [tt] | _ => [] end)
       inputs).

(** What a log holds after its first end-of-input signal. *)
Fixpoint after_end (l : list event) : list event :=
  match l with
  | [] => []
  | PushNull :: rest => rest
  | _ :: rest => after_end rest
  end.

(** The getQueueUrl requests in flight. *)
Definition lookup_weight (t : task) : nat :=
  match t with
  | ReqGetQueueUrl _ => 1%nat
  | _ => 0%nat
  end.


(** * Properties *)

Arguments task_eq_dec : simpl never.

(** ** The pool *)

Lemma task_eq_dec_refl (t : task) : task_eq_dec t t = left eq_refl.
Proof.
  destruct (task_eq_dec t t) as [e | n]; [ | contradiction ].
  f_equal. apply Eqdep_dec.UIP_dec. exact task_eq_dec.
Qed.

Lemma remove_task_head (t : task) (l : list task) :
  remove_task t (t :: l) = Some l.
Proof. simpl. now rewrite task_eq_dec_refl. Qed.

Lemma remove_task_In (t : task) (l l' : list task) :
  remove_task t l = Some l' -> In t l.
Proof.
  revert l'. induction l as [| a l IH]; simpl; intros l' H; [ discriminate | ].
  destruct (task_eq_dec t a) as [-> | _]; [ now left | ].
  destruct (remove_task t l); [ right; eauto | discriminate ].
Qed.

Lemma In_remove_task (t : task) (l : list task) :
  In t l -> exists l', remove_task t l = Some l'.
Proof.
  induction l as [| a l IH]; simpl; [ contradiction | ].
  intros H. destruct (task_eq_dec t a) as [_ | n]; [ eauto | ].
  destruct H as [-> | H]; [ contradiction | ].
  destruct (IH H) as [l' ->]. simpl. eauto.
Qed.

Lemma remove_task_weight (f : task -> nat) (t : task) (l l' : list task) :
  remove_task t l = Some l' -> weight f l = (f t + weight f l')%nat.
Proof.
  revert l'. induction l as [| a l IH]; simpl; intros l' H; [ discriminate | ].
  destruct (task_eq_dec t a) as [-> | _].
  - now injection H as <-.
  - destruct (remove_task t l) as [l0 |]; [ | discriminate ].
    injection H as <-. simpl. rewrite (IH l0 eq_refl). lia.
Qed.

Lemma set_tasks_same (s : SqStream) : set_tasks s (tasks s) = s.
Proof. now destruct s. Qed.

Lemma take_spawn (t : task) (s : SqStream) : take t (spawn t s) = Some s.
Proof.
  unfold take, spawn. simpl. rewrite task_eq_dec_refl. simpl.
  now destruct s.
Qed.

Lemma option_map_take (f : SqStream -> SqStream) (t : task)
    (s s' : SqStream) :
  option_map f (take t s) = Some s' ->
  exists pool,
    remove_task t (tasks s) = Some pool /\ s' = f (set_tasks s pool).
Proof.
  unfold take. destruct (remove_task t (tasks s)) as [pool |]; simpl;
    [ | discriminate ].
  intros H. injection H as <-. eauto.
Qed.

Lemma interval_spec (t : task) (tick : SqStream -> option SqStream)
    (s s' : SqStream) :
  interval t tick s = Some s' ->
  exists pool,
    remove_task t (tasks s) = Some pool /\
    (tick (set_tasks s pool) = Some s' \/
     (tick (set_tasks s pool) = None /\ s' = s)).
Proof.
  unfold interval, take.
  destruct (remove_task t (tasks s)) as [pool |]; simpl; [ | discriminate ].
  destruct (tick (set_tasks s pool)) as [s'' |] eqn:E; intros H;
    injection H as <-; exists pool; split; auto.
Qed.

(** Case analysis on one turn: the input, the callback being run, and what
    is left of the pool. *)
Ltac step_inv H :=
  unfold step in H;
  repeat match type of H with
         | match ?x with _ => _ end = Some _ => destruct x
         end;
  first
    [ discriminate H
    | injection H as <-
    | let pool := fresh "pool" in
      let Hpool := fresh "Hpool" in
      apply option_map_take in H as (pool & Hpool & ->)
    | let pool := fresh "pool" in
      let Hpool := fresh "Hpool" in
      let Htick := fresh "Htick" in
      apply interval_spec in H as (pool & Hpool & [Htick | [Htick ->]]) ].

(** ** The log *)

Lemma out_push_all (messages : list Message.t) (s : SqStream) :
  push_all messages s = set_out s (out s ++ map Push messages).
Proof.
  unfold push_all. revert s.
  induction messages as [| m l IH]; intros s; simpl.
  - rewrite app_nil_r. now destruct s.
  - rewrite IH. unfold emit, set_out. simpl. now rewrite <- app_assoc.
Qed.

Lemma pushed_app (l l' : list event) : pushed (l ++ l') = pushed l ++ pushed l'.
Proof. apply flat_map_app. Qed.

Lemma errors_app (l l' : list event) : errors (l ++ l') = errors l ++ errors l'.
Proof. apply flat_map_app. Qed.

Lemma lookups_app (l l' : list event) :
  lookups (l ++ l') = lookups l ++ lookups l'.
Proof. apply flat_map_app. Qed.

Lemma sends_app (l l' : list event) : sends (l ++ l') = sends l ++ sends l'.
Proof. apply flat_map_app. Qed.

Lemma deletes_app (l l' : list event) :
  deletes (l ++ l') = deletes l ++ deletes l'.
Proof. apply flat_map_app. Qed.

Lemma ends_app (l l' : list event) : ends (l ++ l') = (ends l + ends l')%nat.
Proof. unfold ends. now rewrite flat_map_app, length_app. Qed.

Lemma ends_cons (e : event) (l : list event) :
  ends (e :: l) = (ends [e] + ends l)%nat.
Proof. apply (ends_app [e] l). Qed.

Lemma ends_one (e : event) :
  ends [e] = match e with PushNull => 1%nat | _ => 0%nat end.
Proof. now destruct e. Qed.

Lemma pushed_map_Push (l : list Message.t) : pushed (map Push l) = l.
Proof. induction l as [| m l IH]; simpl; [ | rewrite IH ]; reflexivity. Qed.

Lemma errors_map_Push (l : list Message.t) : errors (map Push l) = [].
Proof. induction l; simpl; auto. Qed.

Lemma sends_map_Push (l : list Message.t) : sends (map Push l) = [].
Proof. induction l; simpl; auto. Qed.

Lemma lookups_map_Push (l : list Message.t) : lookups (map Push l) = [].
Proof. induction l; simpl; auto. Qed.

Lemma deletes_map_Push (l : list Message.t) : deletes (map Push l) = [].
Proof. induction l; simpl; auto. Qed.

Lemma ends_map_Push (l : list Message.t) : ends (map Push l) = 0%nat.
Proof. induction l; simpl; auto. Qed.

Create HintDb sq discriminated.
Create Rewrite HintDb sq.

#[local] Hint Unfold _read getMessages getUrl getUrl_immediate lookup
  getQueueUrl_callback url_then url_fail deleteMessages
  deleteMessages_immediate deleted_then deleted_fail
  deleteMessageBatch_callback fin_ack handleMessages drain_tick
  receiveMessage_callback processWrites sendMessageBatch_callback
  queueWrite _write write_tick spawn emit : sq.

#[local] Hint Rewrite out_push_all pushed_app errors_app lookups_app sends_app
  deletes_app ends_app ends_one pushed_map_Push errors_map_Push sends_map_Push
  lookups_map_Push deletes_map_Push ends_map_Push app_nil_r : sq.

Lemma delete_entries_nil (messages : list Message.t) :
  (List.length (delete_entries messages) =? 0)%nat = true -> messages = [].
Proof. destruct messages; simpl; [ reflexivity | discriminate ]. Qed.

Lemma length_snoc_nonzero (A : Type) (l : list A) (a : A) :
  (List.length (l ++ [a]) =? 0)%nat = false.
Proof. rewrite length_app. simpl. apply Nat.eqb_neq. lia. Qed.

(** Unfolds the operations of the adapter and splits on their tests. *)
Ltac split_tests :=
  repeat match goal with
         | H : (List.length (_ ++ [_]) =? 0)%nat = true |- _ =>
             rewrite length_snoc_nonzero in H; discriminate H
         | H : Some _ = Some _ |- _ => injection H as <-
         | H : None = Some _ |- _ => discriminate H
         | H : Some _ = None |- _ => discriminate H
         | H : (List.length (delete_entries _) =? 0)%nat = true |- _ =>
             apply delete_entries_nil in H; subst
         | |- context [match ?x with _ => _ end] =>
             lazymatch x with
             | task_eq_dec _ _ => fail
             | _ => destruct x eqn:?
             end; simpl in *
         | H : context [match ?x with _ => _ end] |- _ =>
             lazymatch x with
             | task_eq_dec _ _ => fail
             | _ => destruct x eqn:?
             end; simpl in *
         end.

Ltac use_tests :=
  repeat match goal with
         | E : ?x = true, H : context [if ?x then _ else _] |- _ =>
             rewrite E in H
         | E : ?x = false, H : context [if ?x then _ else _] |- _ =>
             rewrite E in H
         | E : ?x = true |- context [if ?x then _ else _] => rewrite E
         | E : ?x = false |- context [if ?x then _ else _] => rewrite E
         end.

Ltac unfold_ops :=
  autounfold with sq in *; simpl in *; split_tests;
  repeat (progress (autorewrite with sq in *; simpl in * ));
  split_tests; use_tests.

Lemma step_pushed (i : input) (s s' : SqStream) :
  step i s = Some s' ->
  pushed (out s') = pushed (out s) ++ emitted_by i.
Proof.
  intros H. step_inv H; unfold_ops; try congruence; try reflexivity.
Qed.

(** What the pool weighed before the callback being run was taken out. *)
Ltac pool_weight f :=
  try match goal with
      | Hpool : remove_task _ _ = Some _ |- _ =>
          let W := fresh "W" in
          pose proof (remove_task_weight f _ _ _ Hpool) as W; simpl in W
      end.

Lemma step_errors (i : input) (s s' : SqStream) :
  step i s = Some s' ->
  errors (out s') = errors (out s) ++ raised_by i.
Proof.
  intros H. step_inv H; unfold_ops; try congruence; try reflexivity.
Qed.

(** A batch is sent from one place only: the promise of getUrl resolved for
    processWrites. *)
Lemma step_sends (i : input) (s s' : SqStream) :
  step i s = Some s' ->
  sends (out s') = sends (out s) \/
  exists entries url,
    sends (out s') = sends (out s) ++ [(url, entries)] /\
    (i = Tick (ImmGetUrl (ThenSend entries)) \/
     i = GetQueueUrlDone (ThenSend entries) (inr url)).
Proof.
  intros H. step_inv H; unfold_ops; try (left; congruence);
    right; eauto 6.
Qed.

(** End-of-input is signalled from one place only: a tick of the drain timer
    that finds no acknowledgment under way (lines 129-133). *)
Lemma step_ends (i : input) (s s' : SqStream) :
  step i s = Some s' ->
  ends (out s') = ends (out s) \/
  (i = Tick DrainTimer /\ In DrainTimer (tasks s) /\ _inFlightAcks s <= 0 /\
   ends (out s') = S (ends (out s)) /\
   weight drain_weight (tasks s) = S (weight drain_weight (tasks s'))).
Proof.
  intros H. step_inv H; unfold_ops;
    try (left; first [ congruence | lia ]).
  right. repeat split.
  - eapply remove_task_In; eauto.
  - lia.
  - lia.
  - now rewrite (remove_task_weight drain_weight _ _ _ Hpool).
Qed.

(** ** Invariants of the reachable states *)

Lemma step_acks_counted (i : input) (s s' : SqStream) :
  step i s = Some s' -> acks_counted s -> acks_counted s'.
Proof.
  unfold acks_counted. intros H Hs.
  step_inv H; unfold_ops; pool_weight ack_weight; lia.
Qed.

Lemma step_drain_once (i : input) (s s' : SqStream) :
  step i s = Some s' -> drain_once s -> drain_once s'.
Proof.
  unfold drain_once. intros H Hs.
  step_inv H; unfold_ops; pool_weight drain_weight;
    first [ lia | congruence ].
Qed.

Lemma ready_not_sending (m : option string) (s : SqStream) :
  readyForWrite m s = true -> _sendingMessages s = false.
Proof.
  unfold readyForWrite.
  destruct (Z.of_nat (List.length (_pendingWrites s)) >=? maxMessagesPerSend s);
    [ discriminate | ].
  destruct (_sendingMessages s); [ discriminate | reflexivity ].
Qed.


(** readyForWrite reads the buffer, the busy flag and the two limits. *)
Lemma readyForWrite_ext (m : option string) (s s' : SqStream) :
  _pendingWrites s = _pendingWrites s' ->
  _sendingMessages s = _sendingMessages s' ->
  maxMessagesPerSend s = maxMessagesPerSend s' ->
  maxMessageSize s = maxMessageSize s' ->
  readyForWrite m s = readyForWrite m s'.
Proof. unfold readyForWrite. now intros -> -> -> ->. Qed.

Ltac ready_facts :=
  repeat match goal with
         | H : negb _ = false |- _ => apply negb_false_iff in H
         | H : negb _ = true |- _ => apply negb_true_iff in H
         | H : readyForWrite _ ?s = true |- _ =>
             lazymatch goal with
             | _ : _sendingMessages s = false |- _ => fail
             | _ => pose proof (ready_not_sending _ _ H)
             end
         end.

Lemma idle_no_flush (s : SqStream) :
  one_flush s -> _sendingMessages s = false ->
  weight flush_weight (tasks s) = 0%nat.
Proof.
  intros (Hle & Hf) Hs.
  destruct (Nat.eq_dec (weight flush_weight (tasks s)) 1) as [E | E];
    [ apply Hf in E; congruence | lia ].
Qed.

Lemma step_write_side (i : input) (s s' : SqStream) :
  step i s = Some s' ->
  buffer_ready s /\ one_flush s -> buffer_ready s' /\ one_flush s'.
Proof.
  unfold buffer_ready. intros H (Hb & Hone).
  pose proof (idle_no_flush s Hone) as Hidle.
  destruct Hone as (Hle & Hf). unfold one_flush.
  step_inv H; unfold_ops; pool_weight flush_weight; ready_facts;
    try (specialize (Hidle ltac:(assumption)));
    (split;
     [ try first
         [ left; reflexivity
         | right; assumption
         | destruct Hb as [Hb | Hb];
           [ left; exact Hb
           | right; rewrite <- Hb; apply readyForWrite_ext; reflexivity ] ]
     | split; intros; try first [ lia | congruence | apply Hf; lia ] ]).
  all: destruct Hb as [Hb | Hb];
    [ first [ left; exact Hb | rewrite Hb in *; discriminate ]
    | apply ready_not_sending in Hb; specialize (Hidle Hb);
      first [ lia | exfalso; lia ] ].
Qed.

Lemma invariant_new (queueName : string) : invariant (new queueName).
Proof.
  split.
  - reflexivity.
  - reflexivity.
  - now left.
  - split; simpl; [ lia | discriminate ].
Qed.

Lemma step_invariant (i : input) (s s' : SqStream) :
  step i s = Some s' -> invariant s -> invariant s'.
Proof.
  intros H [Ha Hd Hb Hf].
  destruct (step_write_side i s s' H (conj Hb Hf)).
  split; eauto using step_acks_counted, step_drain_once.
Qed.

Lemma run_invariant (inputs : list input) (s s' : SqStream) :
  run inputs s = Some s' -> invariant s -> invariant s'.
Proof.
  revert s. induction inputs as [| i inputs IH]; simpl; intros s H Hs.
  - now injection H as <-.
  - destruct (step i s) as [s1 |] eqn:E; [ | discriminate ].
    eauto using step_invariant.
Qed.

Lemma reachable_invariant (s : SqStream) : reachable s -> invariant s.
Proof.
  intros (q & inputs & H). eauto using run_invariant, invariant_new.
Qed.

Lemma run_app (l l' : list input) (s : SqStream) :
  run (l ++ l') s =
  match run l s with
  | Some s' => run l' s'
  | None => None
  end.
Proof.
  revert s. induction l as [| i l IH]; simpl; intros s; [ reflexivity | ].
  destruct (step i s); auto.
Qed.

Lemma reachable_intro (queueName : string) (inputs : list input)
    (s : SqStream) :
  run inputs (new queueName) = Some s -> reachable s.
Proof. intros H. now exists queueName, inputs. Qed.

Lemma reachable_run (inputs : list input) (s s' : SqStream) :
  reachable s -> run inputs s = Some s' -> reachable s'.
Proof.
  intros (q & l & H) H'. exists q, (l ++ inputs). now rewrite run_app, H.
Qed.

Lemma reachable_step (i : input) (s s' : SqStream) :
  reachable s -> step i s = Some s' -> reachable s'.
Proof.
  intros Hs H. apply (reachable_run [i] s); [ assumption | ].
  simpl. now rewrite H.
Qed.

(** A property kept by every turn is kept by every sequence of turns. *)
Lemma run_preserves (P : SqStream -> Prop) :
  (forall i s s', step i s = Some s' -> P s -> P s') ->
  forall inputs s s', run inputs s = Some s' -> P s -> P s'.
Proof.
  intros Hstep inputs. induction inputs as [| i inputs IH]; simpl;
    intros s s' H Hs.
  - now injection H as <-.
  - destruct (step i s) as [s1 |] eqn:E; [ | discriminate ]. eauto.
Qed.

(** Nothing resets [_waitingToEnd]. *)
Lemma step_waitingToEnd (i : input) (s s' : SqStream) :
  step i s = Some s' -> _waitingToEnd s = true -> _waitingToEnd s' = true.
Proof.
  intros H Hs. step_inv H; unfold_ops; congruence.
Qed.

Lemma run_waitingToEnd (inputs : list input) (s s' : SqStream) :
  run inputs s = Some s' -> _waitingToEnd s = true -> _waitingToEnd s' = true.
Proof.
  apply (run_preserves (fun s => _waitingToEnd s = true)).
  exact step_waitingToEnd.
Qed.

(** The counter is never negative. *)
Lemma acks_nonneg (s : SqStream) : reachable s -> 0 <= _inFlightAcks s.
Proof.
  intros H. destruct (reachable_invariant s H) as [Ha _ _ _].
  unfold acks_counted in Ha. lia.
Qed.

(** ** Draining (handleMessages) *)

(** A reply to receiveMessage that finds the adapter draining starts no
    acknowledgment and does nothing to the outside. *)
Lemma late_reply_discarded (s s' : SqStream) (url : string)
    (r : error + option (list Message.t)) :
  _waitingToEnd s = true ->
  step (ReceiveDone url r) s = Some s' ->
  out s' = out s /\
  _inFlightAcks s' = _inFlightAcks s /\
  weight ack_weight (tasks s') = weight ack_weight (tasks s) /\
  _waitingToEnd s' = true.
Proof.
  intros Hw H. step_inv H; unfold_ops; pool_weight ack_weight;
    try congruence; repeat split; auto; lia.
Qed.

(** C2. Once draining has begun, a poll result that arrives later is
    discarded: nothing is emitted and no acknowledgment is started, and the
    adapter draining stays draining whatever happens next.  The end-of-output
    signal, push(null), is issued only by a tick of the drain timer, in the
    draining state, when InFlightAckCounter is zero and no acknowledgment is
    under way. *)
Theorem drain_discards_late_results_and_ends_after_acks (s : SqStream) :
  reachable s ->
  (_waitingToEnd s = true ->
   (forall url r s',
      step (ReceiveDone url r) s = Some s' ->
      out s' = out s /\
      _inFlightAcks s' = _inFlightAcks s /\
      weight ack_weight (tasks s') = weight ack_weight (tasks s) /\
      _waitingToEnd s' = true) /\
   (forall inputs s', run inputs s = Some s' -> _waitingToEnd s' = true)) /\
  (forall i s',
     step i s = Some s' ->
     ends (out s') <> ends (out s) ->
     i = Tick DrainTimer /\
     _waitingToEnd s = true /\
     _inFlightAcks s = 0 /\
     weight ack_weight (tasks s) = 0%nat /\
     _inFlightAcks s' = 0).
Proof.
  intros Hs. split.
  - intros Hw. split.
    + intros url r s' H. now apply (late_reply_discarded s s' url r).
    + intros inputs s' H. now apply (run_waitingToEnd inputs s).
  - intros i s' H Hends.
    pose proof (reachable_invariant s Hs) as [Ha Hd _ _].
    pose proof (reachable_invariant s' (reachable_step i s s' Hs H))
      as [Ha' _ _ _].
    destruct (step_ends i s s' H) as [E | (-> & Hin & Hle & E & W)];
      [ contradiction | ].
    unfold acks_counted, drain_once in *.
    assert (Hz : _inFlightAcks s = 0) by lia.
    assert (Hw : _waitingToEnd s = true).
    { destruct (_waitingToEnd s); [ reflexivity | lia ]. }
    repeat split; auto; try lia.
    clear Hends E. step_inv H; unfold_ops; lia.
Qed.

(** C2, on a run: the adapter of [draining_turns] is draining with a poll
    in flight; the poll comes back with a message and the log is left as it
    is; the tick of the drain timer signals end-of-input with the counter
    at 0. *)
Lemma drain_discards_late_results_and_ends_after_acks_witness :
  exists s s1 s2,
    run draining_turns (new "some-queue") = Some s /\
    _waitingToEnd s = true /\
    step (ReceiveDone sample_url (inr (Some [sample_first]))) s = Some s1 /\
    out s1 = out s /\
    step (Tick DrainTimer) s = Some s2 /\
    ends (out s2) <> ends (out s) /\
    _inFlightAcks s = 0.
Proof.
  eexists. eexists. eexists.
  split; [ vm_compute; reflexivity | ].
  split; [ reflexivity | ].
  split; [ vm_compute; reflexivity | ].
  split; [ | split; [ vm_compute; reflexivity | ] ].
  - match goal with
    | |- out ?s1 = out ?s =>
        assert (Hs : reachable s)
          by (apply (reachable_intro "some-queue" draining_turns);
              vm_compute; reflexivity);
        destruct (drain_discards_late_results_and_ends_after_acks s Hs)
          as [Hlate _];
        destruct (Hlate eq_refl) as [Hdiscard _];
        exact (proj1 (Hdiscard sample_url (inr (Some [sample_first])) s1
                        eq_refl))
    end.
  - match goal with
    | |- ends (out ?s2) <> ends (out ?s) /\ _ =>
        assert (Hs : reachable s)
          by (apply (reachable_intro "some-queue" draining_turns);
              vm_compute; reflexivity);
        assert (Hne : ends (out s2) <> ends (out s))
          by (intros Hc; vm_compute in Hc; discriminate Hc);
        destruct (drain_discards_late_results_and_ends_after_acks s Hs)
          as [_ Hend];
        destruct (Hend (Tick DrainTimer) s2 eq_refl Hne) as (_ & _ & Hz & _);
        exact (conj Hne Hz)
    end.
Defined.

(** ** Flushing (processWrites) *)

Lemma In_take (t : task) (s : SqStream) :
  In t (tasks s) ->
  exists pool, remove_task t (tasks s) = Some pool /\
               take t s = Some (set_tasks s pool).
Proof.
  intros H. destruct (In_remove_task t (tasks s) H) as [pool Hpool].
  exists pool. unfold take. now rewrite Hpool.
Qed.

(** Running the callback that was registered last. *)
Lemma tick_ImmGetUrl (k : url_cont) (s : SqStream) :
  step (Tick (ImmGetUrl k)) (spawn (ImmGetUrl k) s)
  = Some (getUrl_immediate k s).
Proof. unfold step. now rewrite take_spawn. Qed.



Lemma done_GetQueueUrl (k : url_cont) (r : error + string) (s : SqStream) :
  step (GetQueueUrlDone k r) (spawn (ReqGetQueueUrl k) s)
  = Some (getQueueUrl_callback k r s).
Proof. unfold step. now rewrite take_spawn. Qed.


Lemma done_Send (url : string) (entries : list SendEntry.t)
    (r : option error) (s : SqStream) :
  step (SendDone url entries r) (spawn (ReqSend url entries) s)
  = Some (sendMessageBatch_callback r s).
Proof. unfold step. now rewrite take_spawn. Qed.

Lemma tick_WriteTimer (message : string) (callback : nat) (s : SqStream) :
  step (Tick (WriteTimer message callback))
    (spawn (WriteTimer message callback) s)
  = match write_tick message callback s with
    | Some s' => Some s'
    | None => Some (spawn (WriteTimer message callback) s)
    end.
Proof. unfold step, interval. now rewrite take_spawn. Qed.

(** C8. A flush runs to completion when the callback of sendMessageBatch is
    called.  Without error the busy flag is cleared and nothing else happens:
    nothing reaches the outside and no field but the flag changes.  With an
    error the busy flag is cleared and exactly one error is emitted on the
    error channel; the batch is not retried: no callback is registered, no
    request is sent and the buffer is left as it is. *)
Theorem flush_completion (s : SqStream) (url : string)
    (entries : list SendEntry.t) (r : option error) :
  In (ReqSend url entries) (tasks s) ->
  exists s',
    step (SendDone url entries r) s = Some s' /\
    _sendingMessages s' = false /\
    out s' = out s ++ match r with
                      | Some err => [EmitError err]
                      | None => []
                      end /\
    remove_task (ReqSend url entries) (tasks s) = Some (tasks s') /\
    sends (out s') = sends (out s) /\
    _pendingWrites s' = _pendingWrites s /\
    _queueUrl s' = _queueUrl s /\
    _inFlightAcks s' = _inFlightAcks s /\
    _waitingToEnd s' = _waitingToEnd s.
Proof.
  intros Hin. destruct (In_take _ _ Hin) as (pool & Hpool & Htake).
  simpl. rewrite Htake. simpl. eexists. split; [ reflexivity | ].
  destruct r as [err |]; unfold_ops; repeat split; auto.
Qed.

(** C8, on a run: the batch of [sending_turns] is refused by the service. *)
Lemma flush_completion_witness :
  exists s s',
    run sending_turns (new "some-queue") = Some s /\
    step (SendDone sample_url sample_batch (Some "ServiceUnavailable")) s
    = Some s' /\
    _sendingMessages s' = false /\
    out s' = out s ++ [EmitError "ServiceUnavailable"].
Proof.
  eexists. eexists.
  split; [ vm_compute; reflexivity | ].
  match goal with
  | |- step ?i ?s = Some _ /\ _ =>
      assert (Hin : In (ReqSend sample_url sample_batch) (tasks s))
        by (left; reflexivity);
      destruct (flush_completion s sample_url sample_batch
                  (Some "ServiceUnavailable") Hin)
        as (s' & Hstep & Hflag & Hout & _)
  end.
  vm_compute in Hstep.
  split; [ vm_compute; reflexivity | ].
  injection Hstep as <-.
  split; [ exact Hflag | exact Hout ].
Defined.






(** ** Admission of writes (queueWrite, _write) *)


(** ** End of input on the write side ('prefinish') *)

Lemma reduce_entries_bodies (memo : list SendEntry.t) (idx : nat)
    (pendingWrites : list string) :
  map SendEntry.MessageBody (reduce_entries memo idx pendingWrites)
  = map SendEntry.MessageBody memo ++ pendingWrites.
Proof.
  revert memo idx.
  induction pendingWrites as [| message rest IH]; intros memo idx; simpl.
  - now rewrite app_nil_r.
  - rewrite IH, map_app, <- app_assoc. reflexivity.
Qed.

Lemma reduce_entries_ids (memo : list SendEntry.t) (idx : nat)
    (pendingWrites : list string) :
  map SendEntry.Id (reduce_entries memo idx pendingWrites)
  = map SendEntry.Id memo
    ++ map toString (seq idx (List.length pendingWrites)).
Proof.
  revert memo idx.
  induction pendingWrites as [| message rest IH]; intros memo idx; simpl.
  - now rewrite app_nil_r.
  - rewrite IH, map_app, <- app_assoc. reflexivity.
Qed.




(** ** Queue exhaustion (getMessages, handleMessages) *)


Lemma step_closed (i : input) (s s' : SqStream) :
  step i s = Some s' -> closed s ->
  closed s' /\ pushed (out s') = pushed (out s) /\
  ends (out s') = ends (out s).
Proof.
  unfold closed. intros H (Hw & Ha & Hd).
  step_inv H; pool_weight ack_weight; pool_weight drain_weight;
    try (exfalso; lia);
    unfold_ops; try congruence;
    repeat split; simpl; auto; lia.
Qed.


Lemma reachable_induction (P : SqStream -> Prop) :
  (forall i s s', reachable s -> P s -> step i s = Some s' -> P s') ->
  forall inputs s s', reachable s -> P s -> run inputs s = Some s' -> P s'.
Proof.
  intros Hstep inputs. induction inputs as [| i inputs IH]; simpl;
    intros s s' Hs HP H.
  - now injection H as <-.
  - destruct (step i s) as [s1 |] eqn:E; [ | discriminate ].
    apply (IH s1); eauto using reachable_step.
Qed.

(** Once end-of-input has been signalled the read side is closed. *)
Lemma ended_closed (s : SqStream) :
  reachable s -> (1 <= ends (out s))%nat -> closed s.
Proof.
  intros Hs. pose proof Hs as (q & inputs & Hrun). revert Hrun.
  apply (reachable_induction
           (fun s => (1 <= ends (out s))%nat -> closed s)).
  - intros i s0 s1 Hs0 IH Hstep Hends.
    destruct (step_ends i s0 s1 Hstep) as [E | (-> & Hin & Hle & E & W)].
    + rewrite E in Hends. now apply (step_closed i s0 s1 Hstep (IH Hends)).
    + destruct (reachable_invariant s0 Hs0) as [Ha Hd _ _].
      destruct (reachable_invariant s1 (reachable_step _ _ _ Hs0 Hstep))
        as [_ Hd' _ _].
      unfold acks_counted, drain_once in *.
      assert (Hw : _waitingToEnd s0 = true).
      { destruct (_waitingToEnd s0); [ reflexivity | lia ]. }
      rewrite (step_waitingToEnd _ _ _ Hstep Hw) in Hd'.
      clear Hends E. step_inv Hstep; unfold_ops; try lia.
      pool_weight ack_weight. unfold closed. simpl in *.
      autorewrite with sq in *. simpl in *. repeat split; auto; lia.
  - exists q, []. reflexivity.
  - unfold ends. simpl. intros. lia.
Qed.




(** ** Acknowledge, then deliver (handleMessages, deleteMessages) *)

Lemma remove_task_Forall (P : task -> Prop) (t : task) (l l' : list task) :
  remove_task t l = Some l' -> Forall P l -> P t /\ Forall P l'.
Proof.
  revert l'. induction l as [| a l IH]; simpl; intros l' H HP;
    [ discriminate | ].
  inversion HP as [| ? ? Ha Hl]; subst.
  destruct (task_eq_dec t a) as [-> | _].
  - injection H as <-. auto.
  - destruct (remove_task t l) as [l0 |]; [ | discriminate ].
    injection H as <-. destruct (IH l0 eq_refl Hl). auto.
Qed.

Lemma delete_entries_cons (messages : list Message.t) :
  (List.length (delete_entries messages) =? 0)%nat = false ->
  messages <> [].
Proof. destruct messages; simpl; [ discriminate | discriminate ]. Qed.

Lemma step_batches_intact (i : input) (s s' : SqStream) :
  step i s = Some s' -> batches_intact s -> batches_intact s'.
Proof.
  unfold batches_intact. intros H Hs.
  step_inv H;
    try (destruct (remove_task_Forall batch_task _ _ _ Hpool Hs)
          as [Ht Hrest]; simpl in Ht);
    unfold_ops; auto;
    repeat (apply Forall_cons; simpl; auto).
  split; [ reflexivity | ]. now apply delete_entries_cons.
Qed.

Lemma reachable_batches_intact (s : SqStream) :
  reachable s -> batches_intact s.
Proof.
  intros (q & inputs & H).
  apply (run_preserves batches_intact step_batches_intact inputs (new q) s H).
  constructor.
Qed.

Lemma truthy_nonempty (u : string) : u <> "" -> truthy u = true.
Proof.
  intros H. unfold truthy. apply negb_true_iff. now apply String.eqb_neq.
Qed.




(** ** Address resolution (getUrl) *)

Lemma step_cached (u : string) (i : input) (s s' : SqStream) :
  u <> "" ->
  answers u i ->
  step i s = Some s' ->
  _queueUrl s = Some u ->
  _queueUrl s' = Some u /\ lookups (out s') = lookups (out s).
Proof.
  intros Hu Hi H Hc.
  pose proof (truthy_nonempty u Hu) as Ht.
  step_inv H; simpl in Hi; subst; unfold_ops; subst; try congruence; auto.
Qed.

Lemma run_cached (u : string) (inputs : list input) (s s' : SqStream) :
  u <> "" ->
  Forall (answers u) inputs ->
  run inputs s = Some s' ->
  _queueUrl s = Some u ->
  _queueUrl s' = Some u /\ lookups (out s') = lookups (out s).
Proof.
  intros Hu Hall. revert s.
  induction Hall as [| i inputs Hi Hall IH]; simpl; intros s H Hs.
  - injection H as <-. auto.
  - destruct (step i s) as [s1 |] eqn:E; [ | discriminate ].
    destruct (step_cached u i s s1 Hu Hi E Hs) as (Hs1 & Hl).
    destruct (IH s1 H Hs1) as (Hs' & Hl').
    split; [ exact Hs' | congruence ].
Qed.

Lemma In_url_then (k : url_cont) (u : string) (s : SqStream) (e : event) :
  In e (out s) -> In e (out (url_then k u s)).
Proof.
  intros H. destruct k; simpl; apply in_or_app; now left.
Qed.

Lemma lookups_url_then (k : url_cont) (u : string) (s : SqStream) :
  lookups (out (url_then k u s)) = lookups (out s).
Proof.
  destruct k; simpl; rewrite lookups_app; simpl; apply app_nil_r.
Qed.

Lemma In_url_fail (k : url_cont) (err : error) (s : SqStream) (e : event) :
  In e (out s) -> In e (out (url_fail k err s)).
Proof.
  intros H. destruct k; simpl; auto. apply in_or_app; now left.
Qed.

Lemma lookups_url_fail (k : url_cont) (err : error) (s : SqStream) :
  lookups (out (url_fail k err s)) = lookups (out s).
Proof.
  destruct k; simpl; auto. rewrite lookups_app. simpl. apply app_nil_r.
Qed.

(** C5. A call of getUrl that finds no address cached, as the first call
    does, issues a lookup by queue name.  When a lookup succeeds the address
    is cached and given to the caller; from then on a call that finds the
    address (a non-empty string) cached gives the same address to its
    caller without a lookup, and, the service giving that address to the
    lookups still in flight, the cache never changes and no lookup is ever
    issued again.  When a lookup fails
    the error is given to the caller and the cache is left as it was, so
    that with nothing cached the next call issues a new lookup. *)
Theorem getUrl_caches_successful_lookup_only (s : SqStream) (k : url_cont) :
  (forall queueName,
     exists s',
       step (Tick (ImmGetUrl k)) (getUrl k (new queueName)) = Some s' /\
       lookups (out s') = [queueName] /\
       In (ReqGetQueueUrl k) (tasks s')) /\
  (_queueUrl s = None ->
   In (ImmGetUrl k) (tasks s) ->
   exists s',
     step (Tick (ImmGetUrl k)) s = Some s' /\
     out s' = out s ++ [CallGetQueueUrl (_queueName s)] /\
     In (ReqGetQueueUrl k) (tasks s')) /\
  (forall u,
     In (ReqGetQueueUrl k) (tasks s) ->
     exists s',
       step (GetQueueUrlDone k (inr u)) s = Some s' /\
       _queueUrl s' = Some u /\
       In (UrlResolved k u) (out s') /\
       lookups (out s') = lookups (out s)) /\
  (forall u,
     u <> "" ->
     _queueUrl s = Some u ->
     (In (ImmGetUrl k) (tasks s) ->
      exists s',
        step (Tick (ImmGetUrl k)) s = Some s' /\
        In (UrlResolved k u) (out s') /\
        lookups (out s') = lookups (out s) /\
        _queueUrl s' = Some u) /\
     (forall inputs s',
        Forall (answers u) inputs ->
        run inputs s = Some s' ->
        _queueUrl s' = Some u /\ lookups (out s') = lookups (out s))) /\
  (forall e,
     In (ReqGetQueueUrl k) (tasks s) ->
     exists s',
       step (GetQueueUrlDone k (inl e)) s = Some s' /\
       _queueUrl s' = _queueUrl s /\
       In (UrlRejected k e) (out s') /\
       lookups (out s') = lookups (out s)).
Proof.
  split; [ | split; [ | split; [ | split ] ] ].
  - intros queueName. unfold getUrl. rewrite tick_ImmGetUrl. eexists.
    split; [ reflexivity | ]. split; [ reflexivity | now left ].
  - intros Hnone Hin. destruct (In_take _ _ Hin) as (pool & _ & Htake).
    unfold step. rewrite Htake. simpl. unfold getUrl_immediate. simpl.
    rewrite Hnone. eexists. split; [ reflexivity | ].
    split; [ reflexivity | now left ].
  - intros u Hin. destruct (In_take _ _ Hin) as (pool & _ & Htake).
    unfold step. rewrite Htake. simpl. eexists. split; [ reflexivity | ].
    unfold getQueueUrl_callback. split; [ | split ].
    + destruct k; reflexivity.
    + apply In_url_then. simpl. apply in_or_app. right. now left.
    + rewrite lookups_url_then. simpl. rewrite lookups_app. simpl.
      apply app_nil_r.
  - intros u Hu Hcache. split.
    + intros Hin. destruct (In_take _ _ Hin) as (pool & _ & Htake).
      unfold step. rewrite Htake. simpl. unfold getUrl_immediate. simpl.
      rewrite Hcache, (truthy_nonempty u Hu).
      eexists. split; [ reflexivity | ]. split; [ | split ].
      * apply In_url_then. simpl. apply in_or_app. right. now left.
      * rewrite lookups_url_then. simpl. rewrite lookups_app. simpl.
        apply app_nil_r.
      * destruct k; exact Hcache.
    + intros inputs s' Hall Hrun.
      exact (run_cached u inputs s s' Hu Hall Hrun Hcache).
  - intros e Hin. destruct (In_take _ _ Hin) as (pool & _ & Htake).
    unfold step. rewrite Htake. simpl. eexists. split; [ reflexivity | ].
    unfold getQueueUrl_callback. split; [ | split ].
    + destruct k; reflexivity.
    + apply In_url_fail. simpl. apply in_or_app. right. now left.
    + rewrite lookups_url_fail. simpl. rewrite lookups_app. simpl.
      apply app_nil_r.
Qed.

(** C5, on a run: the first lookup of [resolving_turns] fails and the second
    succeeds; a third call is served from the cache without a lookup. *)
Lemma getUrl_caches_successful_lookup_only_witness :
  exists s,
    run resolving_turns (new "some-queue") = Some s /\
    _queueUrl s = Some sample_url /\
    lookups (out s) = ["some-queue"; "some-queue"] /\
    In (UrlRejected ThenReceive "RequestTimeout") (out s) /\
    exists s',
      run [Read; Tick (ImmGetUrl ThenReceive)] s = Some s' /\
      _queueUrl s' = Some sample_url /\
      lookups (out s') = lookups (out s).
Proof.
  eexists. split; [ vm_compute; reflexivity | ].
  split; [ reflexivity | ]. split; [ reflexivity | ].
  split; [ vm_compute; tauto | ].
  eexists. split; [ vm_compute; reflexivity | ].
  match goal with
  | |- _queueUrl ?s' = _ /\ lookups _ = lookups (out ?s) =>
      assert (Hu : sample_url <> "") by discriminate;
      destruct (getUrl_caches_successful_lookup_only s ThenReceive)
        as (_ & _ & _ & Hhit & _);
      destruct (Hhit sample_url Hu eq_refl) as (_ & Hstable);
      assert (Hall : Forall (answers sample_url)
                       [Read; Tick (ImmGetUrl ThenReceive)])
        by (repeat constructor);
      exact (Hstable [Read; Tick (ImmGetUrl ThenReceive)] s' Hall eq_refl)
  end.
Defined.

(** An empty address is cached like any other, but line 46 takes it for no
    address: the next call looks the address up again. *)
Lemma empty_address_is_looked_up_again (s : SqStream) (k : url_cont) :
  _queueUrl s = Some "" ->
  step (Tick (ImmGetUrl k)) (getUrl k s) = Some (lookup k s).
Proof.
  intros H. unfold getUrl. rewrite tick_ImmGetUrl.
  unfold getUrl_immediate. now rewrite H.
Qed.

(** ** Failures on the read side *)

(** Over any sequence of turns the error channel receives the errors of the
    failed sendMessageBatch calls and nothing else. *)
Lemma run_errors (inputs : list input) (s s' : SqStream) :
  run inputs s = Some s' ->
  errors (out s') = errors (out s) ++ flat_map raised_by inputs.
Proof.
  revert s. induction inputs as [| i inputs IH]; simpl; intros s H.
  - injection H as <-. now rewrite app_nil_r.
  - destruct (step i s) as [s1 |] eqn:E; [ | discriminate ].
    rewrite (IH s1 H), (step_errors i s s1 E). now rewrite <- app_assoc.
Qed.

(** A failed deleteMessageBatch call rejects the promise of handleMessages,
    which [_read] has dropped; nothing is emitted. *)
Lemma delete_failure_rejects_promise_only (s s' : SqStream) (url : string)
    (entries : list DeleteEntry.t) (messages : list Message.t) (e : error) :
  step (DeleteDone url entries messages (Some e)) s = Some s' ->
  out s' = out s ++ [HandleRejected e] /\
  errors (out s') = errors (out s) /\
  pushed (out s') = pushed (out s).
Proof.
  intros H. step_inv H. unfold_ops. auto.
Qed.

(** C1, on the code. receiveMessage returns two messages and the
    deleteMessageBatch call fails: no message is emitted and
    InFlightAckCounter is back to 0, but nothing is emitted on the error
    channel: the error only rejects the promise of handleMessages, on which
    nothing is chained, and no callback is left that could report it. *)
Theorem delete_failure_is_not_reported :
  exists s,
    run failed_ack_turns (new "some-queue") = Some s /\
    pushed (out s) = [] /\
    _inFlightAcks s = 0 /\
    errors (out s) = [] /\
    In (HandleRejected "InternalError") (out s) /\
    tasks s = [].
Proof.
  eexists. split; [ vm_compute; reflexivity | ].
  repeat split. vm_compute. tauto.
Qed.

(** ** The admission rule (readyForWrite) *)

Lemma byteLength_nonneg (m : string) : 0 <= byteLength m.
Proof. unfold byteLength. lia. Qed.

Lemma truthy_byteLength (m : string) :
  (if truthy m then byteLength m else 0) = byteLength m.
Proof. destruct m; reflexivity. Qed.

(** What readyForWrite tests. *)
Lemma readyForWrite_spec (message : option string) (s : SqStream) :
  readyForWrite message s = true <->
  Z.of_nat (List.length (_pendingWrites s)) < maxMessagesPerSend s /\
  _sendingMessages s = false /\
  2 * buffer_bytes (match message with
                    | Some m => byteLength m
                    | None => 0
                    end) (_pendingWrites s) < maxMessageSize s.
Proof.
  unfold readyForWrite, buffer_bytes.
  replace (match message with
           | Some m => if truthy m then byteLength m else 0
           | None => 0
           end)
    with (match message with Some m => byteLength m | None => 0 end)
    by (destruct message; [ now rewrite truthy_byteLength | reflexivity ]).
  destruct (Z.geb_spec (Z.of_nat (List.length (_pendingWrites s)))
              (maxMessagesPerSend s)).
  { split; [ discriminate | intros (? & _); lia ]. }
  destruct (_sendingMessages s).
  { split; [ discriminate | intros (_ & ? & _); discriminate ]. }
  match goal with
  | |- context [?x + ?x >=? ?y] => destruct (Z.geb_spec (x + x) y)
  end.
  - split; [ discriminate | intros (_ & _ & ?); lia ].
  - split; [ intros _; repeat split; lia | reflexivity ].
Qed.

Lemma length_filler (n : nat) : String.length (filler n) = n.
Proof. induction n as [| n IH]; simpl; [ | rewrite IH ]; reflexivity. Qed.

(** C4, on the code. A payload whose doubled byte length reaches the
    maximum message size is refused by the admission check of _write, which
    counts the candidate; the check made by the timer (line 237) is called
    without the candidate, so on a new adapter the first tick admits the
    payload, and the batch that is flushed and sent has a doubled byte
    length that is not below the maximum. *)
Theorem deferred_write_is_admitted_without_its_size (queueName : string)
    (payload : string) (callback : nat) (url : string) :
  maxMessageSize (new queueName) <= 2 * byteLength payload ->
  readyForWrite (Some payload) (new queueName) = false /\
  readyForWrite None (new queueName) = true /\
  exists s,
    run (oversized_turns payload callback url) (new queueName) = Some s /\
    In (WriteCallback callback []) (out s) /\
    sends (out s) = [(url, [SendEntry.make "0" payload])] /\
    ~ 2 * batch_bytes [SendEntry.make "0" payload] < maxMessageSize s.
Proof.
  intros Hbig. simpl in Hbig.
  assert (Hrefused : readyForWrite (Some payload) (new queueName) = false).
  { destruct (readyForWrite (Some payload) (new queueName)) eqn:E;
      [ | reflexivity ].
    apply readyForWrite_spec in E. destruct E as (_ & _ & E).
    unfold buffer_bytes in E. simpl in E. lia. }
  split; [ exact Hrefused | ]. split; [ reflexivity | ].
  set (k := ThenSend [SendEntry.make "0" payload]).
  set (sA := set_pendingWrites
               (set_sendingMessages
                  (emit (WriteCallback callback []) (new queueName)) true)
               []).
  assert (Hqueue : queueWrite payload callback (new queueName)
                   = spawn (ImmGetUrl k) sA).
  { unfold queueWrite.
    match goal with
    | |- (if negb (readyForWrite None ?s) then _ else _) = _ =>
        destruct (readyForWrite None s) eqn:E
    end.
    - apply readyForWrite_spec in E. destruct E as (_ & _ & E).
      unfold buffer_bytes in E. simpl in E. lia.
    - reflexivity. }
  eexists. split.
  { unfold oversized_turns. fold k. cbn [run].
    unfold step at 1. unfold _write. cbn [normalize]. rewrite Hrefused.
    rewrite tick_WriteTimer. unfold write_tick.
    change (readyForWrite None (new queueName)) with true. cbn iota.
    rewrite Hqueue, tick_ImmGetUrl.
    change (getUrl_immediate k sA)
      with (spawn (ReqGetQueueUrl k) (emit (CallGetQueueUrl queueName) sA)).
    rewrite done_GetQueueUrl. reflexivity. }
  split; [ simpl; tauto | ]. split; [ reflexivity | ].
  unfold batch_bytes, buffer_bytes. simpl. lia.
Qed.

(** C4, on a run: a payload of 131072 bytes, half the maximum message
    size. *)
Lemma deferred_write_is_admitted_without_its_size_witness :
  maxMessageSize (new "some-queue")
  <= 2 * byteLength (filler (N.to_nat 131072)) /\
  readyForWrite (Some (filler (N.to_nat 131072))) (new "some-queue") = false /\
  exists s,
    run (oversized_turns (filler (N.to_nat 131072)) 0 sample_url)
      (new "some-queue") = Some s /\
    sends (out s)
    = [(sample_url, [SendEntry.make "0" (filler (N.to_nat 131072))])].
Proof.
  assert (Hbig : maxMessageSize (new "some-queue")
                 <= 2 * byteLength (filler (N.to_nat 131072))).
  { unfold byteLength. rewrite length_filler, N_nat_Z.
    change (maxMessageSize (new "some-queue")) with 262144. lia. }
  destruct (deferred_write_is_admitted_without_its_size "some-queue"
              (filler (N.to_nat 131072)) 0 sample_url Hbig)
    as (Hrefused & _ & s & Hrun & _ & Hsent & _).
  split; [ exact Hbig | ]. split; [ exact Hrefused | ].
  exists s. split; [ exact Hrun | exact Hsent ].
Defined.

Lemma length_reduce_entries (pendingWrites : list string) :
  List.length (reduce_entries [] 0 pendingWrites) = List.length pendingWrites.
Proof.
  rewrite <- (length_map SendEntry.MessageBody), reduce_entries_bodies.
  reflexivity.
Qed.

Lemma processWrites_small (s : SqStream) :
  (List.length (_pendingWrites s) <= 10)%nat ->
  batches_small s -> batches_small (processWrites s).
Proof.
  unfold batches_small, processWrites. intros Hlen (Hmax & Htasks & Hsent).
  destruct (List.length (_pendingWrites s) =? 0)%nat; [ auto | ].
  simpl. repeat split; auto.
  apply Forall_cons; [ | exact Htasks ].
  simpl. unfold small_batch. now rewrite length_reduce_entries.
Qed.

Lemma queueWrite_small (message : string) (callback : nat) (s : SqStream)
    (m : option string) :
  readyForWrite m s = true ->
  batches_small s -> batches_small (queueWrite message callback s).
Proof.
  intros Hready Hs. pose proof Hs as (Hmax & Htasks & Hsent).
  apply readyForWrite_spec in Hready. destruct Hready as (Hlen & _).
  unfold queueWrite.
  match goal with
  | |- batches_small (if ?b then processWrites ?s1 else _) =>
      assert (Hs1 : batches_small s1);
      [ | destruct b; [ apply processWrites_small | ]; auto ]
  end.
  - unfold batches_small. simpl. rewrite sends_app. simpl.
    rewrite app_nil_r. auto.
  - simpl. rewrite length_app. simpl. lia.
Qed.

Lemma step_batches_small (i : input) (s s' : SqStream) :
  step i s = Some s' ->
  buffer_ready s -> batches_small s -> batches_small s'.
Proof.
  intros H Hb Hs.
  assert (Hpool : forall t pool,
             remove_task t (tasks s) = Some pool ->
             flush_task_small t /\ batches_small (set_tasks s pool)).
  { intros t pool Hrem. destruct Hs as (Hmax & Htasks & Hsent).
    destruct (remove_task_Forall _ _ _ _ Hrem Htasks).
    unfold batches_small. auto. }
  step_inv H;
    try (destruct (Hpool _ _ Hpool0) as (Ht & Hs0); simpl in Ht);
    clear Hpool.
  all: try match goal with
           | Hs : batches_small ?s0 |- batches_small (_write _ _ ?s0) =>
               unfold _write; destruct (readyForWrite _ s0) eqn:E;
               [ now apply (queueWrite_small _ _ _ _ E)
               | destruct Hs as (Hmax & Htasks & Hsent);
                 unfold batches_small; simpl; repeat split; auto ]
           | Hs : batches_small ?s0, Hb : buffer_ready ?s0
             |- batches_small (processWrites ?s0) =>
               apply processWrites_small; [ | exact Hs ];
               destruct Hb as [Hb | Hb]; [ rewrite Hb; simpl; lia | ];
               apply readyForWrite_spec in Hb;
               destruct Hs as (Hmax & _); lia
           | Htick : write_tick _ _ ?s0 = Some _ |- _ =>
               unfold write_tick in Htick;
               destruct (readyForWrite None s0) eqn:E;
               [ | discriminate ];
               injection Htick as <-;
               now apply (queueWrite_small _ _ _ _ E)
           | Hs : batches_small ?s0 |- batches_small ?s0 => exact Hs
           end.
  all: try (destruct Hs as (Hmax & Htasks & Hsent)).
  all: try (destruct Hs0 as (Hmax0 & Htasks0 & Hsent0)).
  all: unfold batches_small; unfold_ops; simpl;
    repeat split; auto; repeat (apply Forall_cons; simpl; auto);
    try (apply Forall_app; split; auto).
Qed.

Lemma flushed_batches_have_at_most_ten_entries (s : SqStream) (url : string)
    (entries : list SendEntry.t) :
  reachable s ->
  In (url, entries) (sends (out s)) ->
  (List.length entries <= 10)%nat.
Proof.
  intros Hs Hin.
  assert (Hsmall : batches_small s).
  { pose proof Hs as (q & inputs & Hrun). revert Hrun.
    apply (reachable_induction batches_small).
    - intros i s0 s1 Hs0 IH Hstep.
      destruct (reachable_invariant s0 Hs0) as [_ _ Hb _].
      now apply (step_batches_small i s0 s1).
    - exists q, []. reflexivity.
    - repeat split; constructor. }
  destruct Hsmall as (_ & _ & Hsent). rewrite Forall_forall in Hsent.
  exact (Hsent _ Hin).
Qed.

(** * Further properties *)

(** ** The batches sent *)

Lemma to_uint_not_Nil (n : nat) : Nat.to_uint n <> Decimal.Nil.
Proof.
  intros H.
  pose proof (Unsigned.to_of (Nat.to_uint n)) as E.
  rewrite Unsigned.of_to, H in E. cbv in E. discriminate E.
Qed.

Lemma toString_inj (a b : nat) : toString a = toString b -> a = b.
Proof.
  unfold toString. intros H.
  apply Unsigned.to_uint_inj.
  assert (E : Some (Nat.to_uint a) = Some (Nat.to_uint b)).
  { rewrite <- (NilZero.usu (Nat.to_uint a)) by apply to_uint_not_Nil.
    rewrite <- (NilZero.usu (Nat.to_uint b)) by apply to_uint_not_Nil.
    now rewrite H. }
  now injection E.
Qed.

Lemma reduce_entries_indexed (pendingWrites : list string) :
  pendingWrites <> [] ->
  indexed_batch (reduce_entries [] 0 pendingWrites).
Proof.
  intros Hne. split.
  - intros E. apply (f_equal (@List.length _)) in E.
    rewrite length_reduce_entries in E.
    destruct pendingWrites; [ now apply Hne | simpl in E; discriminate E ].
  - now rewrite reduce_entries_bodies.
Qed.

Lemma processWrites_indexed (s : SqStream) :
  batches_indexed s -> batches_indexed (processWrites s).
Proof.
  unfold batches_indexed, processWrites. intros (Htasks & Hsent).
  destruct (List.length (_pendingWrites s) =? 0)%nat eqn:E; [ auto | ].
  split; [ | exact Hsent ].
  change (Forall flush_task_indexed
            (ImmGetUrl (ThenSend (reduce_entries [] 0 (_pendingWrites s)))
             :: tasks s)).
  apply Forall_cons; [ | exact Htasks ].
  apply reduce_entries_indexed. intros H0. rewrite H0 in E. discriminate E.
Qed.

Lemma queueWrite_indexed (message : string) (callback : nat) (s : SqStream) :
  batches_indexed s -> batches_indexed (queueWrite message callback s).
Proof.
  intros (Htasks & Hsent). unfold queueWrite.
  match goal with
  | |- batches_indexed (if ?b then processWrites ?s1 else _) =>
      assert (Hs1 : batches_indexed s1);
      [ | destruct b; [ apply processWrites_indexed | ]; exact Hs1 ]
  end.
  unfold batches_indexed. simpl. rewrite sends_app. simpl.
  rewrite app_nil_r. auto.
Qed.

Lemma step_batches_indexed (i : input) (s s' : SqStream) :
  step i s = Some s' -> batches_indexed s -> batches_indexed s'.
Proof.
  intros H Hs.
  assert (Hpool : forall t pool,
             remove_task t (tasks s) = Some pool ->
             flush_task_indexed t /\ batches_indexed (set_tasks s pool)).
  { intros t pool Hrem. destruct Hs as (Htasks & Hsent).
    destruct (remove_task_Forall _ _ _ _ Hrem Htasks).
    unfold batches_indexed. auto. }
  step_inv H;
    try (destruct (Hpool _ _ Hpool0) as (Ht & Hs0); simpl in Ht);
    clear Hpool.
  all: try match goal with
           | Hs : batches_indexed ?s0 |- batches_indexed (_write _ _ ?s0) =>
               unfold _write; destruct (readyForWrite _ s0);
               [ now apply queueWrite_indexed
               | destruct Hs as (Htasks & Hsent);
                 unfold batches_indexed; simpl; split; auto ]
           | Hs : batches_indexed ?s0 |- batches_indexed (processWrites ?s0) =>
               now apply processWrites_indexed
           | Htick : write_tick _ _ ?s0 = Some _ |- _ =>
               unfold write_tick in Htick;
               destruct (readyForWrite None s0); [ | discriminate ];
               injection Htick as <-;
               now apply queueWrite_indexed
           | Hs : batches_indexed ?s0 |- batches_indexed ?s0 => exact Hs
           end.
  all: try (destruct Hs as (Htasks & Hsent)).
  all: try (destruct Hs0 as (Htasks0 & Hsent0)).
  all: unfold batches_indexed; unfold_ops; simpl;
    repeat split; auto; repeat (apply Forall_cons; simpl; auto);
    try (apply Forall_app; split; auto).
Qed.

(** X1. Every sendMessageBatch call the adapter makes carries between one
    and ten entries, and their ids are the decimal indices 0, 1, ... in
    order, hence distinct within the batch. *)
Theorem sent_batches_are_indexed_and_bounded (s : SqStream) (url : string)
    (entries : list SendEntry.t) :
  reachable s ->
  In (url, entries) (sends (out s)) ->
  (1 <= List.length entries <= 10)%nat /\
  map SendEntry.Id entries = map toString (seq 0 (List.length entries)) /\
  NoDup (map SendEntry.Id entries).
Proof.
  intros Hs Hin.
  assert (Hidx : indexed_batch entries).
  { assert (Hall : batches_indexed s).
    { destruct Hs as (q & inputs & Hrun).
      apply (run_preserves batches_indexed step_batches_indexed inputs
               (new q) s Hrun).
      split; constructor. }
    destruct Hall as (_ & Hsent). rewrite Forall_forall in Hsent.
    exact (Hsent _ Hin). }
  assert (Hsmall : (List.length entries <= 10)%nat).
  { assert (Hall : batches_small s).
    { pose proof Hs as (q & inputs & Hrun). revert Hrun.
      apply (reachable_induction batches_small).
      - intros i s0 s1 Hs0 IH Hstep.
        destruct (reachable_invariant s0 Hs0) as [_ _ Hb _].
        now apply (step_batches_small i s0 s1).
      - exists q, []. reflexivity.
      - repeat split; constructor. }
    destruct Hall as (_ & _ & Hsent). rewrite Forall_forall in Hsent.
    exact (Hsent _ Hin). }
  destruct Hidx as (Hne & Hidx).
  assert (Hids : map SendEntry.Id entries
                 = map toString (seq 0 (List.length entries))).
  { rewrite Hidx at 1. rewrite reduce_entries_ids. simpl.
    now rewrite length_map. }
  split; [ | split ].
  - split; [ | exact Hsmall ].
    destruct entries; [ contradiction | simpl; lia ].
  - exact Hids.
  - rewrite Hids. apply Finite.Injective_map_NoDup.
    + intros a b. apply toString_inj.
    + apply seq_NoDup.
Qed.

(** X1, on a run: the three payloads of [sending_turns]. *)
Lemma sent_batches_are_indexed_and_bounded_witness :
  exists s,
    run sending_turns (new "some-queue") = Some s /\
    In (sample_url, sample_batch) (sends (out s)) /\
    (1 <= List.length sample_batch <= 10)%nat /\
    NoDup (map SendEntry.Id sample_batch).
Proof.
  eexists. split; [ vm_compute; reflexivity | ].
  match goal with
  | |- In ?c (sends (out ?s)) /\ _ =>
      assert (Hs : reachable s)
        by (apply (reachable_intro "some-queue" sending_turns);
            vm_compute; reflexivity);
      assert (Hin : In c (sends (out s))) by (left; reflexivity);
      destruct (sent_batches_are_indexed_and_bounded s sample_url
                  sample_batch Hs Hin) as (Hlen & _ & Hnodup)
  end.
  split; [ exact Hin | ]. split; [ exact Hlen | exact Hnodup ].
Defined.

(** ** The counter of acknowledgments *)

Lemma weight_In (f : task -> nat) (t : task) (l : list task) :
  In t l -> (f t <= weight f l)%nat.
Proof.
  induction l as [| a l IH]; simpl; [ contradiction | ].
  intros [-> | H]; [ lia | apply IH in H; lia ].
Qed.

(** X2. [_inFlightAcks] is never negative, it is at least 1 while a
    deleteMessageBatch request is in flight, and when it is 0 no turn can
    push a message: a drain timer that finds the counter at 0 signals
    end-of-input with no message left to deliver. *)
Theorem no_delivery_pending_when_counter_is_zero (s : SqStream) :
  reachable s ->
  0 <= _inFlightAcks s /\
  (forall url entries messages,
     In (ReqDelete url entries messages) (tasks s) ->
     1 <= _inFlightAcks s) /\
  (_inFlightAcks s = 0 ->
   forall i s', step i s = Some s' -> pushed (out s') = pushed (out s)).
Proof.
  intros Hs. destruct (reachable_invariant s Hs) as [Ha _ _ _].
  unfold acks_counted in Ha. split; [ lia | ]. split.
  - intros url entries messages Hin.
    pose proof (weight_In ack_weight _ _ Hin) as Hw. simpl in Hw. lia.
  - intros Hz i s' Hstep. rewrite (step_pushed i s s' Hstep).
    destruct i as [ | | | | | | url entries messages [err |] | ];
      simpl; try apply app_nil_r.
    step_inv Hstep. pool_weight ack_weight. lia.
Qed.

(** X2, on a run: after the acknowledgment of [failed_ack_turns] the
    counter is 0 and a new poll pushes nothing. *)
Lemma no_delivery_pending_when_counter_is_zero_witness :
  exists s s',
    run failed_ack_turns (new "some-queue") = Some s /\
    _inFlightAcks s = 0 /\
    step Read s = Some s' /\
    pushed (out s') = pushed (out s).
Proof.
  eexists. eexists. split; [ vm_compute; reflexivity | ].
  split; [ reflexivity | ]. split; [ vm_compute; reflexivity | ].
  match goal with
  | |- pushed (out ?s') = pushed (out ?s) =>
      assert (Hs : reachable s)
        by (apply (reachable_intro "some-queue" failed_ack_turns);
            vm_compute; reflexivity);
      destruct (no_delivery_pending_when_counter_is_zero s Hs)
        as (_ & _ & Hzero);
      exact (Hzero eq_refl Read s' eq_refl)
  end.
Defined.

(** ** The callbacks of the writes *)

Lemma completions_app (cb : nat) (l l' : list event) :
  completions cb (l ++ l') = (completions cb l + completions cb l')%nat.
Proof. unfold completions. now rewrite flat_map_app, length_app. Qed.

Lemma completions_one (cb : nat) (e : event) :
  completions cb [e]
  = match e with
    | WriteCallback c _ => if Nat.eqb c cb then 1%nat else 0%nat
    | _ => 0%nat
    end.
Proof.
  destruct e; try reflexivity. unfold completions. simpl.
  now destruct (Nat.eqb cb0 cb).
Qed.

Lemma completions_map_Push (cb : nat) (l : list Message.t) :
  completions cb (map Push l) = 0%nat.
Proof. induction l; simpl; auto. Qed.

Lemma submissions_cons (cb : nat) (i : input) (inputs : list input) :
  submissions cb (i :: inputs)
  = (submissions cb [i] + submissions cb inputs)%nat.
Proof.
  unfold submissions. change (i :: inputs) with ([i] ++ inputs).
  now rewrite flat_map_app, length_app.
Qed.

Lemma step_completions (cb : nat) (i : input) (s s' : SqStream) :
  step i s = Some s' ->
  (completions cb (out s') + weight (timer_weight cb) (tasks s'))%nat
  = (completions cb (out s) + weight (timer_weight cb) (tasks s)
     + submissions cb [i])%nat.
Proof.
  intros H.
  step_inv H; unfold_ops; pool_weight (timer_weight cb);
    rewrite ?completions_app, ?completions_one, ?completions_map_Push;
    unfold submissions; simpl; split_tests; simpl; try lia; try congruence.
Qed.

(** X3. The callback of a write is called at most once, and exactly once
    unless its timer is still pending: over any run of a new adapter, the
    number of calls of a callback plus the number of timers that hold it is
    the number of times _write was given it. *)
Theorem write_callback_called_once (queueName : string)
    (inputs : list input) (s : SqStream) (cb : nat) :
  run inputs (new queueName) = Some s ->
  (completions cb (out s) + weight (timer_weight cb) (tasks s))%nat
  = submissions cb inputs.
Proof.
  assert (Hgen : forall l s0 s1,
             run l s0 = Some s1 ->
             (completions cb (out s1) + weight (timer_weight cb) (tasks s1))%nat
             = (completions cb (out s0) + weight (timer_weight cb) (tasks s0)
                + submissions cb l)%nat).
  { induction l as [| i l IH]; simpl; intros s0 s1 H.
    - injection H as <-. unfold submissions. simpl. lia.
    - destruct (step i s0) as [s2 |] eqn:E; [ | discriminate ].
      rewrite (IH s2 s1 H), (step_completions cb i s0 s2 E),
        (submissions_cons cb i l). lia. }
  intros H. rewrite (Hgen inputs (new queueName) s H). reflexivity.
Qed.

(** X3, on a run: the write of [later_write_turns] waits on its timer, its
    callback not called; the three writes before it are complete. *)
Lemma write_callback_called_once_witness :
  exists s,
    run (closing_turns ++ later_write_turns) (new "some-queue") = Some s /\
    (completions 3 (out s) + weight (timer_weight 3) (tasks s))%nat
    = 1%nat /\
    (completions 1 (out s) + weight (timer_weight 1) (tasks s))%nat
    = 1%nat /\
    completions 3 (out s) = 0%nat /\
    completions 1 (out s) = 1%nat.
Proof.
  eexists. split; [ vm_compute; reflexivity | ].
  match goal with
  | |- (completions 3 (out ?s) + _)%nat = _ /\ _ =>
      pose proof (write_callback_called_once "some-queue"
                    (closing_turns ++ later_write_turns) s 3 eq_refl) as H3;
      pose proof (write_callback_called_once "some-queue"
                    (closing_turns ++ later_write_turns) s 1 eq_refl) as H1
  end.
  split; [ exact H3 | ]. split; [ exact H1 | ]. split; reflexivity.
Defined.

(** ** Polling *)

Lemma receives_app (l l' : list event) :
  receives (l ++ l') = receives l ++ receives l'.
Proof. apply flat_map_app. Qed.

Lemma receives_map_Push (l : list Message.t) : receives (map Push l) = [].
Proof. induction l; simpl; auto. Qed.

Lemma failed_polls_app (l l' : list event) :
  failed_polls (l ++ l') = (failed_polls l + failed_polls l')%nat.
Proof. unfold failed_polls. now rewrite flat_map_app, length_app. Qed.

Lemma failed_polls_one (e : event) :
  failed_polls [e]
  = match e with
    | UrlRejected ThenReceive _ => 1%nat
    | _ => 0%nat
    end.
Proof. destruct e as [ | | | | | | | | | [] | | ]; reflexivity. Qed.

Lemma failed_polls_map_Push (l : list Message.t) :
  failed_polls (map Push l) = 0%nat.
Proof. induction l; simpl; auto. Qed.

Lemma reads_cons (i : input) (inputs : list input) :
  reads (i :: inputs) = (reads [i] + reads inputs)%nat.
Proof.
  unfold reads. change (i :: inputs) with ([i] ++ inputs).
  now rewrite flat_map_app, length_app.
Qed.

Lemma step_polls (i : input) (s s' : SqStream) :
  step i s = Some s' ->
  (List.length (receives (out s')) + weight poll_weight (tasks s')
   + failed_polls (out s'))%nat
  = (List.length (receives (out s)) + weight poll_weight (tasks s)
     + failed_polls (out s) + reads [i])%nat.
Proof.
  intros H.
  step_inv H; unfold_ops; pool_weight poll_weight;
    rewrite ?receives_app, ?receives_map_Push, ?failed_polls_app,
      ?failed_polls_one, ?failed_polls_map_Push, ?length_app;
    unfold reads; simpl; try lia; try congruence.
Qed.

Lemma step_polls_as_configured (i : input) (s s' : SqStream) :
  step i s = Some s' -> polls_as_configured s -> polls_as_configured s'.
Proof.
  unfold polls_as_configured. intros H (Hn & Hv & Hall).
  step_inv H; unfold_ops;
    rewrite ?receives_app, ?receives_map_Push; simpl;
    rewrite ?app_nil_r;
    repeat split; auto;
    try (apply Forall_app; split; auto);
    repeat (apply Forall_cons; simpl; auto).
Qed.

(** X4. Polling is paced by the reader: over any run of a new adapter each
    call of _read gives at most one receiveMessage call, exactly one unless
    its address is still being resolved or its lookup failed; and every
    such call asks for at most 10 messages with a visibility timeout of 30
    seconds. *)
Theorem one_receive_per_read (queueName : string) (inputs : list input)
    (s : SqStream) :
  run inputs (new queueName) = Some s ->
  (List.length (receives (out s)) + weight poll_weight (tasks s)
   + failed_polls (out s))%nat = reads inputs /\
  (List.length (receives (out s)) <= reads inputs)%nat /\
  Forall (fun call => snd (fst call) = 10 /\ snd call = 30)
    (receives (out s)).
Proof.
  intros H.
  assert (Hgen : forall l s0 s1,
             run l s0 = Some s1 ->
             (List.length (receives (out s1)) + weight poll_weight (tasks s1)
              + failed_polls (out s1))%nat
             = (List.length (receives (out s0))
                + weight poll_weight (tasks s0)
                + failed_polls (out s0) + reads l)%nat).
  { induction l as [| i l IH]; simpl; intros s0 s1 H0.
    - injection H0 as <-. unfold reads. simpl. lia.
    - destruct (step i s0) as [s2 |] eqn:E; [ | discriminate ].
      rewrite (IH s2 s1 H0), (step_polls i s0 s2 E), (reads_cons i l).
      lia. }
  pose proof (Hgen inputs (new queueName) s H) as Hcount.
  change (out (new queueName)) with (@nil event) in Hcount.
  change (tasks (new queueName)) with (@nil task) in Hcount.
  simpl in Hcount.
  split; [ exact Hcount | ]. split; [ lia | ].
  assert (Hcfg : polls_as_configured s).
  { apply (run_preserves polls_as_configured step_polls_as_configured
             inputs (new queueName) s H).
    repeat split. constructor. }
  apply Hcfg.
Qed.

(** X4, on a run: the two reads of [draining_turns] gave two calls. *)
Lemma one_receive_per_read_witness :
  exists s,
    run draining_turns (new "some-queue") = Some s /\
    (List.length (receives (out s)) <= reads draining_turns)%nat /\
    receives (out s) = [(sample_url, 10, 30); (sample_url, 10, 30)].
Proof.
  eexists. split; [ vm_compute; reflexivity | ].
  match goal with
  | |- (List.length (receives (out ?s)) <= _)%nat /\ _ =>
      destruct (one_receive_per_read "some-queue" draining_turns s eq_refl)
        as (_ & Hle & _)
  end.
  split; [ exact Hle | reflexivity ].
Defined.

(** ** The addresses in use *)

Lemma used_urls_app (l l' : list event) :
  used_urls (l ++ l') = used_urls l ++ used_urls l'.
Proof. apply flat_map_app. Qed.

Lemma used_urls_map_Push (l : list Message.t) : used_urls (map Push l) = [].
Proof. induction l; simpl; auto. Qed.

Lemma step_addresses_from (name : string) (known : list string) (i : input)
    (s s' : SqStream) :
  step i s = Some s' ->
  addresses_from name known s ->
  addresses_from name (known ++ returned [i]) s'.
Proof.
  unfold addresses_from. intros H (Hname & Hcache & Hused & Hlook).
  step_inv H; unfold_ops;
    repeat match goal with
           | Hc : forall u, Some ?a = Some u -> _ |- _ =>
               pose proof (Hc a eq_refl); clear Hc
           end;
    (split; [ first [ assumption | reflexivity ] | ]);
    (split; [ | split ]); intros x Hx;
    rewrite ?used_urls_app, ?used_urls_map_Push, ?app_nil_r in *;
    repeat rewrite in_app_iff in *; simpl in *;
    intuition (try congruence; subst; eauto);
    try (assert (x = s0) by congruence; subst; assumption).
Qed.

(** X5. Over any run of a new adapter, every lookup is made with the queue
    name given to the constructor, and every receiveMessage,
    deleteMessageBatch and sendMessageBatch request is sent to an address
    that the service gave in answer to a lookup, as is the address held in
    the cache. *)
Theorem requests_use_addresses_from_lookups (queueName : string)
    (inputs : list input) (s : SqStream) :
  run inputs (new queueName) = Some s ->
  (forall n, In n (lookups (out s)) -> n = queueName) /\
  (forall u, In u (used_urls (out s)) -> In u (returned inputs)) /\
  (forall u, _queueUrl s = Some u -> In u (returned inputs)).
Proof.
  intros H.
  assert (Hgen : forall l known s0 s1,
             run l s0 = Some s1 ->
             addresses_from queueName known s0 ->
             addresses_from queueName (known ++ returned l) s1).
  { induction l as [| i l IH]; cbn [run]; intros known s0 s1 H0 Hs0.
    - injection H0 as <-. simpl. now rewrite app_nil_r.
    - destruct (step i s0) as [s2 |] eqn:E; [ | discriminate ].
      pose proof (step_addresses_from _ _ _ _ _ E Hs0) as Hs2.
      pose proof (IH _ _ _ H0 Hs2) as Hs1.
      rewrite <- app_assoc in Hs1.
      change (returned (i :: l)) with (returned ([i] ++ l)).
      unfold returned at 1. rewrite flat_map_app. exact Hs1. }
  assert (Hnew : addresses_from queueName [] (new queueName)).
  { repeat split; simpl; intros; try discriminate; contradiction. }
  destruct (Hgen inputs [] (new queueName) s H Hnew)
    as (_ & Hcache & Hused & Hlook).
  auto.
Qed.

(** X5, on a run: the calls of [failed_ack_turns] go to the address of the
    one successful lookup. *)
Lemma requests_use_addresses_from_lookups_witness :
  exists s,
    run failed_ack_turns (new "some-queue") = Some s /\
    used_urls (out s) = [sample_url; sample_url] /\
    In sample_url (returned failed_ack_turns) /\
    (forall n, In n (lookups (out s)) -> n = "some-queue").
Proof.
  eexists. split; [ vm_compute; reflexivity | ].
  match goal with
  | |- used_urls (out ?s) = _ /\ _ =>
      destruct (requests_use_addresses_from_lookups "some-queue"
                  failed_ack_turns s eq_refl) as (Hlook & Hused & _);
      assert (Hin : In sample_url (used_urls (out s)))
        by (left; reflexivity)
  end.
  split; [ reflexivity | ]. split; [ exact (Hused _ Hin) | exact Hlook ].
Defined.

(** ** Acknowledgment before delivery *)

Lemma remove_task_incl (t x : task) (l l' : list task) :
  remove_task t l = Some l' -> In x l' -> In x l.
Proof.
  revert l'. induction l as [| a l IH]; simpl; intros l' H Hx;
    [ discriminate | ].
  destruct (task_eq_dec t a) as [-> | _].
  - injection H as <-. now right.
  - destruct (remove_task t l) as [l0 |]; [ | discriminate ].
    injection H as <-. destruct Hx as [-> | Hx]; [ now left | ].
    right. now apply (IH l0).
Qed.

(** A turn only adds to the log. *)
Lemma step_out_app (i : input) (s s' : SqStream) :
  step i s = Some s' -> exists d, out s' = out s ++ d.
Proof.
  intros H.
  step_inv H; autounfold with sq in *; simpl in *; split_tests; simpl;
    try rewrite out_push_all; simpl;
    first [ exists []; now rewrite app_nil_r
          | eexists; rewrite <- ?app_assoc; reflexivity ].
Qed.

Lemma step_deletes_incl (i : input) (s s' : SqStream)
    (call : string * list DeleteEntry.t) :
  step i s = Some s' ->
  In call (deletes (out s)) -> In call (deletes (out s')).
Proof.
  intros H Hin. destruct (step_out_app i s s' H) as (d & ->).
  rewrite deletes_app. apply in_or_app. now left.
Qed.

Lemma step_ReqDelete (i : input) (s s' : SqStream) (url : string)
    (entries : list DeleteEntry.t) (messages : list Message.t) :
  step i s = Some s' ->
  In (ReqDelete url entries messages) (tasks s') ->
  In (ReqDelete url entries messages) (tasks s) \/
  In (url, entries) (deletes (out s')).
Proof.
  intros H Hin.
  step_inv H; unfold_ops;
    repeat match goal with
           | Hx : _ \/ _ |- _ => destruct Hx as [Hx | Hx]
           | Hx : _ = ReqDelete _ _ _ |- _ =>
               first [ discriminate Hx | injection Hx as <- <- <- ]
           end;
    try (left; first [ assumption | eapply remove_task_incl; eassumption ]);
    try (right; apply in_or_app; right; now left).
Qed.

Lemma step_deletes_logged (i : input) (s s' : SqStream) :
  step i s = Some s' -> deletes_logged s -> deletes_logged s'.
Proof.
  unfold deletes_logged. intros H Hs url entries messages Hin.
  destruct (step_ReqDelete i s s' url entries messages H Hin) as [Hold | Hnew];
    [ | exact Hnew ].
  apply (step_deletes_incl i s s' _ H). eauto.
Qed.

Lemma step_deletes_nonempty (i : input) (s s' : SqStream)
    (call : string * list DeleteEntry.t) :
  step i s = Some s' ->
  batches_intact s ->
  In call (deletes (out s')) ->
  In call (deletes (out s)) \/ snd call <> [].
Proof.
  unfold batches_intact. intros H Hs Hin.
  step_inv H;
    try (destruct (remove_task_Forall batch_task _ _ _ Hpool Hs)
          as [Ht _]; simpl in Ht);
    unfold_ops;
    repeat rewrite in_app_iff in Hin; simpl in Hin;
    intuition (subst; simpl; auto).
  all: right; intros E;
    match goal with
    | Hm : ?m = [] -> False |- _ => apply Hm; now destruct m
    end.
Qed.

(** X6. Messages are acknowledged before they are delivered: in any
    reachable state, the messages a turn pushes to the reader are each named,
    by MessageId and ReceiptHandle, in a deleteMessageBatch request sent
    before that turn; and no deleteMessageBatch request is ever sent with
    an empty list of entries. *)
Theorem pushed_messages_were_acknowledged (s : SqStream) :
  reachable s ->
  (forall i s' message,
     step i s = Some s' ->
     pushed (out s') = pushed (out s) ++ emitted_by i /\
     (In message (emitted_by i) -> delete_requested (out s) message)) /\
  (forall url entries, In (url, entries) (deletes (out s)) -> entries <> []).
Proof.
  intros Hs. split.
  - intros i s' message Hstep. split; [ now apply step_pushed | ].
    intros Hin.
    destruct i as [ | | | | | | url entries messages [err |] | ];
      simpl in Hin; try contradiction.
    assert (Hlogged : deletes_logged s).
    { destruct Hs as (q & inputs & Hrun).
      apply (run_preserves deletes_logged step_deletes_logged inputs
               (new q) s Hrun).
      intros u es ms []. }
    pose proof (reachable_batches_intact s Hs) as Hall.
    unfold batches_intact in Hall. rewrite Forall_forall in Hall.
    step_inv Hstep.
    pose proof (remove_task_In _ _ _ Hpool) as Htask.
    destruct (Hall _ Htask) as (-> & _).
    exists url, (delete_entries messages). split; [ eauto | ].
    unfold delete_entries. now apply (in_map entry_of).
  - pose proof Hs as (q & inputs & Hrun). revert Hrun.
    apply (reachable_induction
             (fun s => forall url entries,
                  In (url, entries) (deletes (out s)) -> entries <> [])).
    + intros i s0 s1 Hs0 IH Hstep url entries Hin.
      destruct (step_deletes_nonempty i s0 s1 (url, entries) Hstep
                  (reachable_batches_intact s0 Hs0) Hin) as [Hold | Hnew];
        [ eauto | exact Hnew ].
    + exists q, []. reflexivity.
    + intros url entries [].
Qed.

(** X6, on a run: the two messages of [sample_first], [sample_second] are
    pushed by the reply of a delete request that names them. *)
Lemma pushed_messages_were_acknowledged_witness :
  exists s s',
    run (polling_turns
         ++ removelast
              (ack_turns sample_url sample_url [sample_first; sample_second]
                 None)) (new "some-queue") = Some s /\
    step (DeleteDone sample_url
            (delete_entries [sample_first; sample_second])
            [sample_first; sample_second] None) s = Some s' /\
    pushed (out s') = pushed (out s) ++ [sample_first; sample_second] /\
    delete_requested (out s) sample_second.
Proof.
  eexists. eexists. split; [ vm_compute; reflexivity | ].
  split; [ vm_compute; reflexivity | ].
  match goal with
  | |- pushed (out ?s') = pushed (out ?s) ++ _ /\ _ =>
      assert (Hs : reachable s)
        by (apply (reachable_intro "some-queue"
                     (polling_turns
                      ++ removelast
                           (ack_turns sample_url sample_url
                              [sample_first; sample_second] None)));
            vm_compute; reflexivity);
      destruct (pushed_messages_were_acknowledged s Hs) as (Hturn & _);
      destruct (Hturn (DeleteDone sample_url
                         (delete_entries [sample_first; sample_second])
                         [sample_first; sample_second] None)
                  s' sample_second eq_refl) as (Hpush & Hreq)
  end.
  split; [ exact Hpush | ]. apply Hreq. right. left. reflexivity.
Defined.

(** ** Where the messages delivered come from *)

Lemma step_batches_from (known : list (list Message.t)) (i : input)
    (s s' : SqStream) :
  step i s = Some s' ->
  batches_from known s ->
  batches_from (known ++ received [i]) s'.
Proof.
  unfold batches_from. intros H Hs t messages Hin Hcar.
  apply in_or_app.
  step_inv H;
    try (pose proof (Hs _ messages (remove_task_In _ _ _ Hpool)) as Hold;
         simpl in Hold);
    try (assert (Hrest : forall x, In x pool -> In x (tasks s))
          by (intros x; eapply remove_task_incl; eassumption));
    unfold_ops;
    repeat match goal with
           | Hx : _ \/ _ |- _ => destruct Hx as [Hx | Hx]
           end;
    subst; simpl in *;
    try solve [ left; eauto
              | left; intuition eauto
              | right; intuition eauto ].
Qed.

Lemma run_pushed (inputs : list input) (s s' : SqStream) :
  run inputs s = Some s' ->
  pushed (out s') = pushed (out s) ++ flat_map emitted_by inputs.
Proof.
  revert s. induction inputs as [| i inputs IH]; simpl; intros s H.
  - injection H as <-. now rewrite app_nil_r.
  - destruct (step i s) as [s1 |] eqn:E; [ | discriminate ].
    rewrite (IH s1 H), (step_pushed i s s1 E). now rewrite <- app_assoc.
Qed.

Lemma received_cons (i : input) (inputs : list input) :
  received (i :: inputs) = received [i] ++ received inputs.
Proof.
  change (i :: inputs) with ([i] ++ inputs). unfold received.
  now rewrite flat_map_app.
Qed.

Lemma run_batches_from (inputs : list input) (known : list (list Message.t))
    (s s' : SqStream) :
  run inputs s = Some s' ->
  batches_from known s ->
  batches_from (known ++ received inputs) s' /\
  forall batch,
    In batch (flat_map (fun i => match emitted_by i with
                                  | [] => []
                                  | messages => [messages]
                                  end) inputs) ->
    In batch (known ++ received inputs).
Proof.
  revert known s.
  induction inputs as [| i inputs IH]; cbn [run]; intros known s H Hs.
  - injection H as <-. simpl. rewrite app_nil_r. split; [ exact Hs | ].
    intros batch [].
  - destruct (step i s) as [s1 |] eqn:E; [ | discriminate ].
    pose proof (step_batches_from known i s s1 E Hs) as Hs1.
    destruct (IH _ _ H Hs1) as (Hs' & Hpushed).
    rewrite received_cons, app_assoc.
    split; [ exact Hs' | ].
    intros batch Hin. cbn [flat_map] in Hin. apply in_app_or in Hin.
    destruct Hin as [Hin | Hin]; [ | now apply Hpushed ].
    apply in_or_app. left. apply in_or_app. left.
    destruct i as [ | | | | | | url entries messages [err |] | ];
      simpl in Hin; try contradiction.
    destruct messages as [| m l]; simpl in Hin; [ contradiction | ].
    destruct Hin as [<- | []].
    step_inv E.
    apply (Hs (ReqDelete url entries (m :: l)));
      [ eapply remove_task_In; eassumption | now left ].
Qed.

(** X7. The adapter delivers what it received and nothing else: over any
    run of a new adapter the messages pushed to the reader are the batches
    of the deleteMessageBatch calls that completed without error, one after
    the other in the order of completion, and each of these batches is a
    batch that a receiveMessage call of the run returned. *)
Theorem pushed_messages_were_received (queueName : string)
    (inputs : list input) (s : SqStream) :
  run inputs (new queueName) = Some s ->
  pushed (out s) = flat_map emitted_by inputs /\
  forall message,
    In message (pushed (out s)) ->
    exists batch, In batch (received inputs) /\ In message batch.
Proof.
  intros H.
  pose proof (run_pushed inputs (new queueName) s H) as Hpushed.
  simpl in Hpushed. split; [ exact Hpushed | ].
  intros message Hin. rewrite Hpushed in Hin.
  apply in_flat_map in Hin. destruct Hin as (i & Hi & Hm).
  assert (Hnew : batches_from [] (new queueName)) by (intros t ms []).
  destruct (run_batches_from inputs [] (new queueName) s H Hnew)
    as (_ & Hbatches).
  exists (emitted_by i). split; [ | exact Hm ].
  apply (Hbatches (emitted_by i)).
  apply in_flat_map. exists i. split; [ exact Hi | ].
  destruct (emitted_by i); [ contradiction | now left ].
Qed.

(** X7, on a run: the two messages delivered were received. *)
Lemma pushed_messages_were_received_witness :
  exists s,
    run (polling_turns
         ++ ack_turns sample_url sample_url [sample_first; sample_second]
              None) (new "some-queue") = Some s /\
    pushed (out s) = [sample_first; sample_second] /\
    exists batch,
      In batch
        (received
           (polling_turns
            ++ ack_turns sample_url sample_url [sample_first; sample_second]
                 None)) /\
      In sample_second batch.
Proof.
  eexists. split; [ vm_compute; reflexivity | ].
  match goal with
  | |- pushed (out ?s) = _ /\ _ =>
      destruct (pushed_messages_were_received "some-queue"
                  (polling_turns
                   ++ ack_turns sample_url sample_url
                        [sample_first; sample_second] None) s eq_refl)
        as (Hpushed & Hfrom)
  end.
  split; [ exact Hpushed | ].
  apply Hfrom. right. left. reflexivity.
Defined.

(** ** The error channel *)

Lemma send_replies_cons (i : input) (inputs : list input) :
  send_replies (i :: inputs)
  = (send_replies [i] + send_replies inputs)%nat.
Proof.
  unfold send_replies. change (i :: inputs) with ([i] ++ inputs).
  now rewrite flat_map_app, length_app.
Qed.

Lemma step_send_replies (i : input) (s s' : SqStream) :
  step i s = Some s' ->
  (List.length (sends (out s')) + weight send_weight (tasks s))%nat
  = (List.length (sends (out s)) + weight send_weight (tasks s')
     + send_replies [i])%nat.
Proof.
  intros H.
  step_inv H; unfold_ops; pool_weight send_weight;
    rewrite ?length_app; unfold send_replies; simpl; try lia;
    try congruence.
Qed.

Lemma length_raised_by (inputs : list input) :
  (List.length (flat_map raised_by inputs) <= send_replies inputs)%nat.
Proof.
  induction inputs as [| i inputs IH]; [ simpl; lia | ].
  rewrite send_replies_cons. cbn [flat_map]. rewrite length_app.
  destruct i as [ | | | | | | | url entries [err |] ];
    unfold send_replies at 1; simpl; lia.
Qed.

(** X8. Only a failed sendMessageBatch call reaches the error channel: over
    any run of a new adapter the errors emitted are those of the
    sendMessageBatch callbacks called with an error, in that order, so
    at most one per batch sent; a failure of getQueueUrl, receiveMessage or
    deleteMessageBatch emits nothing. *)
Theorem errors_are_the_failed_sends (queueName : string)
    (inputs : list input) (s : SqStream) :
  run inputs (new queueName) = Some s ->
  errors (out s) = flat_map raised_by inputs /\
  (List.length (errors (out s)) <= List.length (sends (out s)))%nat.
Proof.
  intros H.
  assert (Herr : forall l s0 s1,
             run l s0 = Some s1 ->
             errors (out s1) = errors (out s0) ++ flat_map raised_by l).
  { induction l as [| i l IH]; simpl; intros s0 s1 H0.
    - injection H0 as <-. now rewrite app_nil_r.
    - destruct (step i s0) as [s2 |] eqn:E; [ | discriminate ].
      rewrite (IH s2 s1 H0), (step_errors i s0 s2 E).
      now rewrite <- app_assoc. }
  assert (Hsent : forall l s0 s1,
             run l s0 = Some s1 ->
             (List.length (sends (out s1)) + weight send_weight (tasks s0))%nat
             = (List.length (sends (out s0)) + weight send_weight (tasks s1)
                + send_replies l)%nat).
  { induction l as [| i l IH]; cbn [run]; intros s0 s1 H0.
    - injection H0 as <-. unfold send_replies. simpl. lia.
    - destruct (step i s0) as [s2 |] eqn:E; [ | discriminate ].
      pose proof (IH s2 s1 H0) as H1.
      pose proof (step_send_replies i s0 s2 E) as H2.
      rewrite (send_replies_cons i l). lia. }
  pose proof (Herr inputs (new queueName) s H) as He.
  pose proof (Hsent inputs (new queueName) s H) as Hs.
  simpl in He, Hs. split; [ exact He | ].
  rewrite He. pose proof (length_raised_by inputs). lia.
Qed.

(** X8, on a run: a lookup and a delete fail and nothing is emitted; then a
    batch is refused and its error is. *)
Lemma errors_are_the_failed_sends_witness :
  exists s s',
    run (resolving_turns
         ++ ack_turns sample_url sample_url [sample_first]
              (Some "InternalError")) (new "some-queue") = Some s /\
    errors (out s) = [] /\
    run (sending_turns
         ++ [SendDone sample_url sample_batch (Some "ServiceUnavailable")])
      (new "some-queue") = Some s' /\
    errors (out s') = ["ServiceUnavailable"].
Proof.
  eexists. eexists. split; [ vm_compute; reflexivity | ].
  split.
  - match goal with
    | |- errors (out ?s) = _ =>
        exact (proj1 (errors_are_the_failed_sends "some-queue"
                        (resolving_turns
                         ++ ack_turns sample_url sample_url [sample_first]
                              (Some "InternalError")) s eq_refl))
    end.
  - split; [ vm_compute; reflexivity | ].
    match goal with
    | |- errors (out ?s) = _ =>
        exact (proj1 (errors_are_the_failed_sends "some-queue"
                        (sending_turns
                         ++ [SendDone sample_url sample_batch
                               (Some "ServiceUnavailable")]) s eq_refl))
    end.
Defined.

(** ** One flush at a time *)




(** ** When a write triggers a flush *)

Lemma buffer_bytes_snoc (init : Z) (pendingWrites : list string)
    (message : string) :
  buffer_bytes init (pendingWrites ++ [message])
  = buffer_bytes init pendingWrites + byteLength message.
Proof. unfold buffer_bytes. now rewrite fold_left_app. Qed.



(** ** End of input *)

Lemma after_end_none (l : list event) :
  ends l = 0%nat -> after_end l = [].
Proof.
  induction l as [| e l IH]; [ reflexivity | ].
  rewrite ends_cons, ends_one. destruct e; simpl; intros H;
    try (apply IH; lia). discriminate.
Qed.

Lemma after_end_app (l d : list event) :
  after_end (l ++ d)
  = if (ends l =? 0)%nat then after_end d else after_end l ++ d.
Proof.
  induction l as [| e l IH]; [ reflexivity | ].
  rewrite ends_cons, ends_one.
  destruct e; simpl; try exact IH. reflexivity.
Qed.

(** X11. End-of-input is final: in any reachable state push(null) has been
    called at most once, no message was pushed after it, and once it has
    been called the adapter is draining with its counter at 0. *)
Theorem nothing_is_pushed_after_end_of_input (s : SqStream) :
  reachable s ->
  (ends (out s) <= 1)%nat /\
  pushed (after_end (out s)) = [] /\
  (ends (out s) = 1%nat -> _waitingToEnd s = true /\ _inFlightAcks s = 0).
Proof.
  intros Hs.
  destruct (reachable_invariant s Hs) as [Ha Hd _ _].
  unfold acks_counted, drain_once in Ha, Hd.
  split; [ destruct (_waitingToEnd s); lia | ]. split.
  - pose proof Hs as (q & inputs & Hrun). revert Hrun.
    apply (reachable_induction (fun s => pushed (after_end (out s)) = [])).
    + intros i s0 s1 Hs0 IH Hstep.
      destruct (step_out_app i s0 s1 Hstep) as (d & Hout).
      pose proof (step_pushed i s0 s1 Hstep) as Hp.
      rewrite Hout, pushed_app in Hp. apply app_inv_head in Hp.
      rewrite Hout, after_end_app.
      destruct (ends (out s0) =? 0)%nat eqn:E.
      * apply Nat.eqb_eq in E.
        destruct (step_ends i s0 s1 Hstep) as [He | (-> & _ & _ & He & _)].
        -- rewrite Hout, ends_app in He.
           rewrite after_end_none by lia. reflexivity.
        -- simpl in Hp. clear -Hp.
           induction d as [| e d IHd]; [ reflexivity | ].
           change (e :: d) with ([e] ++ d) in Hp. rewrite pushed_app in Hp.
           apply app_eq_nil in Hp. destruct Hp as (He & Hd).
           destruct e; simpl; auto; discriminate He.
      * apply Nat.eqb_neq in E.
        assert (Hc : closed s0) by (apply ended_closed; [ exact Hs0 | lia ]).
        destruct (step_closed i s0 s1 Hstep Hc) as (_ & Hsame & _).
        rewrite Hout, pushed_app in Hsame.
        rewrite pushed_app, IH. simpl.
        rewrite <- (app_nil_r (pushed (out s0))) in Hsame at 2.
        now apply app_inv_head in Hsame.
    + exists q, []. reflexivity.
    + reflexivity.
  - intros Hends.
    assert (Hc : closed s) by (apply ended_closed; [ exact Hs | lia ]).
    destruct Hc as (Hw & Hacks & _). split; [ exact Hw | lia ].
Qed.

(** X11, on a run: the adapter of [draining_turns] signals end-of-input;
    the poll still in flight then returns a message, which is not pushed. *)
Lemma nothing_is_pushed_after_end_of_input_witness :
  exists s,
    run (draining_turns
         ++ [ Tick DrainTimer;
              ReceiveDone sample_url (inr (Some [sample_first]));
              Tick ImmResolveFalse ]) (new "some-queue") = Some s /\
    ends (out s) = 1%nat /\
    after_end (out s) = [HandleResolved false; HandleResolved false] /\
    pushed (after_end (out s)) = [] /\
    _inFlightAcks s = 0.
Proof.
  eexists. split; [ vm_compute; reflexivity | ].
  match goal with
  | |- ends (out ?s) = _ /\ _ =>
      assert (Hs : reachable s)
        by (apply (reachable_intro "some-queue"
                     (draining_turns
                      ++ [ Tick DrainTimer;
                           ReceiveDone sample_url
                             (inr (Some [sample_first]));
                           Tick ImmResolveFalse ]));
            vm_compute; reflexivity);
      destruct (nothing_is_pushed_after_end_of_input s Hs)
        as (_ & Hafter & Hended);
      destruct (Hended eq_refl) as (_ & Hzero)
  end.
  split; [ reflexivity | ]. split; [ reflexivity | ].
  split; [ exact Hafter | exact Hzero ].
Defined.

(** ** Lookups racing *)

(** X12. Lookups are not shared: while no address is cached, every call of
    getUrl whose immediate runs issues a lookup of its own, so [n] calls
    made before the first answer give [n] getQueueUrl requests, and the
    cache stays empty until an answer comes. *)
Theorem racing_calls_each_look_up (ks : list url_cont) (s s' : SqStream) :
  _queueUrl s = None ->
  run (map (fun k => Tick (ImmGetUrl k)) ks) s = Some s' ->
  lookups (out s') = lookups (out s) ++ repeat (_queueName s) (List.length ks)
  /\ _queueUrl s' = None
  /\ weight lookup_weight (tasks s')
     = (weight lookup_weight (tasks s) + List.length ks)%nat.
Proof.
  revert s. induction ks as [| k ks IH]; cbn [map run]; intros s Hnone H.
  - injection H as <-. simpl. rewrite app_nil_r. auto.
  - destruct (step (Tick (ImmGetUrl k)) s) as [s1 |] eqn:E;
      [ | discriminate ].
    apply option_map_take in E. destruct E as (pool & Hpool & ->).
    pose proof (remove_task_weight lookup_weight _ _ _ Hpool) as W.
    unfold getUrl_immediate in H. simpl in H. rewrite Hnone in H.
    destruct (IH (lookup k (set_tasks s pool)) Hnone H) as (Hl & Hc & Hw).
    simpl in Hl, Hw. rewrite lookups_app in Hl. simpl in Hl.
    rewrite <- app_assoc in Hl. simpl in W.
    split; [ exact Hl | ]. split; [ exact Hc | ].
    simpl. lia.
Qed.

(** X12, on a run: two polls are started before the service answers. *)
Lemma racing_calls_each_look_up_witness :
  exists s s',
    run [Read; Read] (new "some-queue") = Some s /\
    _queueUrl s = None /\
    run (map (fun k => Tick (ImmGetUrl k)) [ThenReceive; ThenReceive]) s
    = Some s' /\
    lookups (out s') = ["some-queue"; "some-queue"].
Proof.
  eexists. eexists. split; [ vm_compute; reflexivity | ].
  split; [ reflexivity | ]. split; [ vm_compute; reflexivity | ].
  match goal with
  | |- lookups (out ?s') = _ =>
      exact (proj1 (racing_calls_each_look_up [ThenReceive; ThenReceive]
                      (spawn (ImmGetUrl ThenReceive)
                         (spawn (ImmGetUrl ThenReceive) (new "some-queue")))
                      s' eq_refl eq_refl))
  end.
Defined.

(** ** After a flush *)




(** ** What the cache holds *)

Lemma last_cons_default (A : Type) (x d : A) (l : list A) :
  last (x :: l) d = last l x.
Proof.
  revert x d. induction l as [| y l IH]; intros x d; [ reflexivity | ].
  change (last (x :: y :: l) d) with (last (y :: l) d).
  now rewrite (IH y d), (IH y x).
Qed.

Lemma step_cache (i : input) (s s' : SqStream) :
  step i s = Some s' ->
  _queueUrl s' = last (map Some (returned [i])) (_queueUrl s).
Proof.
  intros H. step_inv H; unfold_ops; congruence.
Qed.

(** X14. The cache holds the last answer: over any run of a new adapter
    [_queueUrl] is null until a lookup succeeds and is afterwards the
    address of the lookup that succeeded last, so that of lookups racing
    each other the last to be answered decides; the cache is never
    cleared. *)
Theorem cache_holds_last_answer (queueName : string) (inputs : list input)
    (s : SqStream) :
  run inputs (new queueName) = Some s ->
  _queueUrl s = last (map Some (returned inputs)) None /\
  (returned inputs <> [] -> _queueUrl s <> None).
Proof.
  intros H.
  assert (Hgen : forall l s0 s1,
             run l s0 = Some s1 ->
             _queueUrl s1 = last (map Some (returned l)) (_queueUrl s0)).
  { induction l as [| i l IH]; cbn [run]; intros s0 s1 H0.
    - now injection H0 as <-.
    - destruct (step i s0) as [s2 |] eqn:E; [ | discriminate ].
      rewrite (IH s2 s1 H0), (step_cache i s0 s2 E).
      change (i :: l) with ([i] ++ l). unfold returned.
      rewrite flat_map_app, map_app.
      destruct i as [ | | | | k [e | u] | | | ]; try reflexivity.
      simpl. symmetry. apply last_cons_default. }
  pose proof (Hgen inputs (new queueName) s H) as Hcache.
  split; [ exact Hcache | ].
  intros Hne. rewrite Hcache.
  destruct (returned inputs) as [| u l]; [ contradiction | ].
  simpl map. rewrite last_cons_default.
  clear. revert u. induction l as [| v l IH]; intros u; [ discriminate | ].
  simpl map. rewrite last_cons_default. apply IH.
Qed.

(** X14, on a run: two polls race; the second answer replaces the first. *)
Lemma cache_holds_last_answer_witness :
  exists s,
    run [ Read; Read; Tick (ImmGetUrl ThenReceive);
          Tick (ImmGetUrl ThenReceive);
          GetQueueUrlDone ThenReceive (inr "https://a.test/q");
          GetQueueUrlDone ThenReceive (inr "https://b.test/q") ]
      (new "some-queue") = Some s /\
    _queueUrl s = Some "https://b.test/q".
Proof.
  eexists. split; [ vm_compute; reflexivity | ].
  match goal with
  | |- _queueUrl ?s = _ =>
      exact (proj1 (cache_holds_last_answer "some-queue"
                      [ Read; Read; Tick (ImmGetUrl ThenReceive);
                        Tick (ImmGetUrl ThenReceive);
                        GetQueueUrlDone ThenReceive (inr "https://a.test/q");
                        GetQueueUrlDone ThenReceive (inr "https://b.test/q") ]
                      s eq_refl))
  end.
Defined.
